(** * MuziCode: the sequencing and mixing engine of [muzicode.py]

    A shallow embedding of the class [MusicSequencer] and a development of
    its tempo clock, its pattern and melody renderers, its mixer and its
    playback discipline.

    The Python object and everything it touches (the file system the
    samples are read from, standard output, the playback sink, the file
    exporter) are threaded through the methods as one explicit [World];
    every method is a computation in a small state-and-exception monad. *)

From Stdlib Require Import ZArith Lia.
From Corelib Require Import PrimFloat.
From Stdlib Require Import SpecFloat FloatOps.
From stdpp Require Import base option list gmap strings pretty.

Local Open Scope string_scope.
Local Open Scope list_scope.
Local Open Scope Z_scope.

(** ** The audio buffer library

    [muzicode.py] builds on pydub's [AudioSegment], which is not part of
    the repository.  Its public interface measures everything in
    milliseconds ([len], [silent(duration=...)], slicing), so a segment is
    modelled at that resolution: one signed 16-bit sample per millisecond,
    all segments in one common format.  This reading keeps what is
    appended and overlaid, in which order, and how long a single silence
    lasts; pydub's count of frames, on which the duration of several
    segments appended one after another depends, is in [PydubFrames]
    further down. *)

Module Pydub.

Abbreviation AudioSegment := (list Z).

(** [AudioSegment.__len__]: the duration in milliseconds. *)
Definition len (seg : AudioSegment) : Z := Z.of_nat (length seg).

(** The truth value of a segment.  [AudioSegment] defines [__len__] and no
    [__bool__], so Python takes a segment of duration zero for false. *)
Definition truth (seg : AudioSegment) : bool := negb (len seg =? 0).

(** [AudioSegment.silent(duration)]: the sample count is computed from the
    duration and the zero sample is repeated that many times; repeating a
    byte string a negative number of times gives the empty string, which
    is what [Z.to_nat] does with a negative duration. *)
Definition silent (duration : Z) : AudioSegment :=
  replicate (Z.to_nat duration) 0.

(** [seg1 + seg2], that is [seg1.append(seg2, crossfade=0)]. *)
Definition append (seg1 seg2 : AudioSegment) : AudioSegment := seg1 ++ seg2.

(** [audioop.add] on 16-bit samples: the sum, saturated. *)
Definition add_sample (x y : Z) : Z := Z.max (-32768) (Z.min 32767 (x + y)).

(** [seg1.overlay(seg2)] with the default [position=0], [times=1]: [seg2]
    is cut to what remains of [seg1], added onto that stretch of [seg1],
    and the rest of [seg1] is written out unchanged. *)
Definition overlay (seg1 seg2 : AudioSegment) : AudioSegment :=
  let seg2 := take (length seg1) seg2 in
  let seg2_len := length seg2 in
  zip_with add_sample (take seg2_len seg1) seg2 ++ drop seg2_len seg1.

End Pydub.

Export Pydub.

Infix "+++" := append (at level 60, right associativity).

(** ** The world around the sequencer *)

(** What sits at a path: a WAV file that decodes to a segment, or something
    [AudioSegment.from_wav] raises on, with the text of the exception. *)
Inductive file : Type :=
| Wav (seg : AudioSegment)
| Unreadable (err : string).

(** What the sequencer does to the outside, in the order it does it.  A
    playback handle is the number the sink gave the buffer. *)
Inductive event : Type :=
| Printed (line : string)
| Stopped (h : nat)
| Played (h : nat) (seg : AudioSegment)
| Exported (filename : string) (seg : AudioSegment)
| Finished (h : nat).

(** The fields [__init__] gives the object. *)
Record MusicSequencer : Type := {
  tempo : Z;
  patterns : gmap string (list Z);
  melodies : gmap string (list string);
  samples_dir : string;
  notes_dir : string;
  current_playback : option nat
}.

Record World : Type := {
  self : MusicSequencer;
  fs : gmap string file;
  next_play_id : nat;
  trace : list event
}.

(** ** Computations *)

Inductive exn : Type :=
| ZeroDivisionError
| KeyError (key : string).

Inductive Result (A : Type) : Type :=
| Ok (a : A)
| Raise (e : exn).

Arguments Ok {A} a.
Arguments Raise {A} e.

Definition M (A : Type) : Type := World -> Result A * World.

Definition ret {A : Type} (a : A) : M A := fun w => (Ok a, w).

Definition bind {A B : Type} (m : M A) (k : A -> M B) : M B :=
  fun w =>
    match m w with
    | (Ok a, w') => k a w'
    | (Raise e, w') => (Raise e, w')
    end.

Definition raise {A : Type} (e : exn) : M A := fun w => (Raise e, w).

Notation "x <- c ;; k" := (bind c (fun x => k))
  (at level 100, c at next level, right associativity).
Notation "c ;;; k" := (bind c (fun _ => k))
  (at level 100, right associativity).

Definition get_self : M MusicSequencer := fun w => (Ok (self w), w).

Definition set_self (s : MusicSequencer) : M unit :=
  fun w =>
    (Ok tt, {| self := s; fs := fs w;
               next_play_id := next_play_id w; trace := trace w |}).

Definition emit (e : event) (w : World) : World :=
  {| self := self w; fs := fs w;
     next_play_id := next_play_id w; trace := trace w ++ [e] |}.

Definition print (line : string) : M unit :=
  fun w => (Ok tt, emit (Printed line) w).

(** [a // b] on Python integers: floor division, an exception on zero. *)
Definition floordiv (a b : Z) : M Z :=
  if b =? 0 then raise ZeroDivisionError else ret (a / b).

(** [d[key]] on a dict. *)
Definition getitem {V : Type} (d : gmap string V) (key : string) : M V :=
  match d !! key with
  | Some v => ret v
  | None => raise (KeyError key)
  end.

(** [key in d]. *)
Definition contains {V : Type} (d : gmap string V) (key : string) : bool :=
  match d !! key with
  | Some _ => true
  | None => false
  end.

(** A [for] loop whose body updates one local variable. *)
Fixpoint for_in {A S : Type} (xs : list A) (body : A -> S -> M S) (s : S)
  : M S :=
  match xs with
  | [] => ret s
  | x :: xs' => s' <- body x s ;; for_in xs' body s'
  end.

(** [os.path.exists] followed by [AudioSegment.from_wav]. *)
Definition read_file (file_path : string) : M (option file) :=
  fun w => (Ok (fs w !! file_path), w).

(** [pydub.playback._play_with_simpleaudio]: the sink starts the buffer
    and hands back a fresh handle. *)
Definition _play_with_simpleaudio (seg : AudioSegment) : M nat :=
  fun w =>
    let h := next_play_id w in
    (Ok h, {| self := self w; fs := fs w;
              next_play_id := S h; trace := trace w ++ [Played h seg] |}).

(** [PlayObject.stop]. *)
Definition PlayObject_stop (h : nat) : M unit :=
  fun w => (Ok tt, emit (Stopped h) w).

(** [AudioSegment.export(filename, format="wav")]: the exporter writes the
    file, which is taken to succeed. *)
Definition export (seg : AudioSegment) (filename : string) : M unit :=
  fun w =>
    (Ok tt, {| self := self w; fs := <[filename := Wav seg]> (fs w);
               next_play_id := next_play_id w;
               trace := trace w ++ [Exported filename seg] |}).

(** ** The methods of [MusicSequencer] *)

Definition __init__ : MusicSequencer :=
  {| tempo := 120; patterns := ∅; melodies := ∅;
     samples_dir := "samples"; notes_dir := "notes";
     current_playback := None |}.

Definition with_tempo (v : Z) (s : MusicSequencer) : MusicSequencer :=
  {| tempo := v; patterns := patterns s; melodies := melodies s;
     samples_dir := samples_dir s; notes_dir := notes_dir s;
     current_playback := current_playback s |}.

Definition with_patterns (p : gmap string (list Z)) (s : MusicSequencer)
  : MusicSequencer :=
  {| tempo := tempo s; patterns := p; melodies := melodies s;
     samples_dir := samples_dir s; notes_dir := notes_dir s;
     current_playback := current_playback s |}.

Definition with_melodies (m : gmap string (list string)) (s : MusicSequencer)
  : MusicSequencer :=
  {| tempo := tempo s; patterns := patterns s; melodies := m;
     samples_dir := samples_dir s; notes_dir := notes_dir s;
     current_playback := current_playback s |}.

Definition with_dirs (sd nd : string) (s : MusicSequencer) : MusicSequencer :=
  {| tempo := tempo s; patterns := patterns s; melodies := melodies s;
     samples_dir := sd; notes_dir := nd;
     current_playback := current_playback s |}.

Definition with_current_playback (h : option nat) (s : MusicSequencer)
  : MusicSequencer :=
  {| tempo := tempo s; patterns := patterns s; melodies := melodies s;
     samples_dir := samples_dir s; notes_dir := notes_dir s;
     current_playback := h |}.

(** [stop_playback]: a [PlayObject] is always true, so the test is on
    [None]. *)
Definition stop_playback : M unit :=
  s <- get_self ;;
  match current_playback s with
  | Some h => PlayObject_stop h
  | None => ret tt
  end.

Definition set_tempo (new_tempo : Z) : M unit :=
  if (20 <=? new_tempo) && (new_tempo <=? 300) then
    s <- get_self ;; set_self (with_tempo new_tempo s)
  else
    print ("Tempo " +:+ pretty new_tempo
           +:+ " fuera de rango (20-300). Usando valor por defecto 120.").

Definition load_audio_file (file_path : string) : M (option AudioSegment) :=
  f <- read_file file_path ;;
  match f with
  | None =>
      print ("Archivo no encontrado: " +:+ file_path) ;;; ret None
  | Some (Wav seg) => ret (Some seg)
  | Some (Unreadable e) =>
      print ("Error cargando " +:+ file_path +:+ ": " +:+ e) ;;; ret None
  end.

(** The body of the loop of [create_pattern_sound]. *)
Definition pattern_step (hit_sound : AudioSegment) (beat_ms : Z)
    (sound : AudioSegment) (val : Z) : AudioSegment :=
  if val =? 1 then
    sound +++ (hit_sound +++ silent (beat_ms - len hit_sound))
  else
    sound +++ silent beat_ms.

Definition create_pattern_sound (name : string) (beat_ms : Z)
  : M (option AudioSegment) :=
  let sound := silent 0 in
  s <- get_self ;;
  pattern <- getitem (patterns s) name ;;
  hit_sound <- load_audio_file (samples_dir s +:+ "/" +:+ name +:+ ".wav") ;;
  match hit_sound with
  | None => ret None
  | Some hit_sound =>
      if negb (truth hit_sound) then ret None
      else ret (Some (fold_left (pattern_step hit_sound beat_ms) pattern sound))
  end.

(** The body of the loop of [create_melody_sound]. *)
Definition melody_step (beat_ms : Z) (note : string) (sound : AudioSegment)
  : M AudioSegment :=
  s <- get_self ;;
  note_audio <- load_audio_file (notes_dir s +:+ "/" +:+ note +:+ ".wav") ;;
  match note_audio with
  | Some note_audio =>
      if truth note_audio then
        ret (sound +++ (note_audio +++ silent (beat_ms - len note_audio)))
      else ret (sound +++ silent beat_ms)
  | None => ret (sound +++ silent beat_ms)
  end.

Definition create_melody_sound (name : string) (beat_ms : Z)
  : M (option AudioSegment) :=
  let sound := silent 0 in
  s <- get_self ;;
  notes <- getitem (melodies s) name ;;
  sound <- for_in notes (melody_step beat_ms) sound ;;
  ret (Some sound).

(** The body of the loop over [items], the same text in [mix_and_play] and
    in [mix_and_save]. *)
Definition mix_step (beat_ms : Z) (name : string) (final : AudioSegment)
  : M AudioSegment :=
  s <- get_self ;;
  sound <- (if contains (patterns s) name then
              create_pattern_sound name beat_ms
            else if contains (melodies s) name then
              create_melody_sound name beat_ms
            else ret None) ;;
  match sound with
  | Some sound => if truth sound then ret (overlay final sound) else ret final
  | None => ret final
  end.

Definition mix_and_play (items : list string) (loop : bool) : M unit :=
  match items with
  | [] => print "Error: No hay items para mezclar"
  | _ :: _ =>
      s <- get_self ;;
      beat_ms <- floordiv 60000 (tempo s) ;;
      final <- for_in items (mix_step beat_ms) (silent (beat_ms * 4)) ;;
      stop_playback ;;;
      h <- _play_with_simpleaudio final ;;
      s <- get_self ;;
      set_self (with_current_playback (Some h) s)
  end.

Definition mix_and_save (items : list string) (filename : string) : M unit :=
  s <- get_self ;;
  beat_ms <- floordiv 60000 (tempo s) ;;
  final <- for_in items (mix_step beat_ms) (silent (beat_ms * 4)) ;;
  export final filename ;;;
  print ("Mezcla guardada como " +:+ filename).

(** ** The audio buffer library, frame by frame

    The reading of [Pydub] above keeps what the renderers append and
    overlay, and in which order, at one sample a millisecond.  pydub
    itself counts frames: [AudioSegment.silent(duration)] holds
    [int(frame_rate * (duration / 1000.0))] frames at 11025 frames a
    second, and [len] rounds [1000 * (frame_count / frame_rate)], so the
    duration of segments appended one after another is not the sum of
    their durations.  This module has pydub's own arithmetic, in binary64
    as Python computes it, for segments in the format of [silent]
    (11025 Hz, mono, 16 bits), which appending does not convert; the
    specification takes one format for all the assets of a session. *)

Module PydubFrames.

Definition frame_rate : Z := 11025.

(** [float(n)] for a Python integer: the nearest binary64 (past the
    largest of them Python raises, and none of the durations here comes
    near). *)
Definition float_of_int (n : Z) : float :=
  SF2Prim (binary_normalize prec emax n 0 false).

(** [int(x)] for a finite float: toward zero. *)
Definition int_of_float (x : float) : Z :=
  match Prim2SF x with
  | S754_finite s m e =>
      let a := if 0 <=? e then Z.shiftl (Z.pos m) e
               else Z.shiftr (Z.pos m) (- e) in
      if s then - a else a
  | S754_zero _ | S754_infinity _ | S754_nan => 0
  end.

(** [round(x)] for a finite float: the nearest integer, the even one on a
    tie. *)
Definition round (x : float) : Z :=
  match Prim2SF x with
  | S754_finite s m e =>
      let a :=
        if 0 <=? e then Z.shiftl (Z.pos m) e
        else
          let q := Z.shiftr (Z.pos m) (- e) in
          let r := Z.pos m - Z.shiftl q (- e) in
          let half := Z.shiftl 1 (- e - 1) in
          if r <? half then q
          else if half <? r then q + 1
          else if Z.even q then q else q + 1 in
      if s then - a else a
  | S754_zero _ | S754_infinity _ | S754_nan => 0
  end.

(** The frames of [AudioSegment.silent(duration)]:
    [int(frame_rate * (duration / 1000.0))]. *)
Definition silent_frames (duration : Z) : Z :=
  int_of_float
    (PrimFloat.mul (float_of_int frame_rate)
       (PrimFloat.div (float_of_int duration) 1000%float)).

(** [AudioSegment.silent(duration)]: two zero bytes a frame, repeated; a
    negative count gives the empty segment. *)
Definition silent (duration : Z) : list Z :=
  replicate (Z.to_nat (silent_frames duration)) 0.

(** [AudioSegment.__len__]: [round(1000 * (frame_count / frame_rate))]. *)
Definition len (seg : list Z) : Z :=
  round
    (PrimFloat.mul 1000%float
       (PrimFloat.div (float_of_int (Z.of_nat (length seg)))
          (float_of_int frame_rate))).

Definition truth (seg : list Z) : bool := negb (len seg =? 0).

(** The body of the loop of [create_melody_sound], in frames. *)
Definition melody_step (beat_ms : Z) (note : string) (sound : list Z)
  : M (list Z) :=
  s <- get_self ;;
  note_audio <- load_audio_file (notes_dir s +:+ "/" +:+ note +:+ ".wav") ;;
  match note_audio with
  | Some note_audio =>
      if truth note_audio then
        ret (sound ++ (note_audio ++ silent (beat_ms - len note_audio)))
      else ret (sound ++ silent beat_ms)
  | None => ret (sound ++ silent beat_ms)
  end.

(** [create_melody_sound], in frames. *)
Definition create_melody_sound (name : string) (beat_ms : Z)
  : M (option (list Z)) :=
  let sound := silent 0 in
  s <- get_self ;;
  notes <- getitem (melodies s) name ;;
  sound <- for_in notes (melody_step beat_ms) sound ;;
  ret (Some sound).

End PydubFrames.

(** ** Running the sequencer *)

(** The commands [parse_line] recognises, with their arguments as it
    converts them; matching the text of a line is left out. *)
Inductive command : Type :=
| CTempo (v : Z)
| CPattern (name : string) (vals : list Z)
| CMelody (name : string) (notes : list string)
| CMix (items : list string)
| CSave (filename : string) (items : list string).

(** What [parse_line] does once a line has matched. *)
Definition parse_line (c : command) : M unit :=
  match c with
  | CTempo v => set_tempo v
  | CPattern name vals =>
      s <- get_self ;; set_self (with_patterns (<[name := vals]> (patterns s)) s)
  | CMelody name notes =>
      s <- get_self ;; set_self (with_melodies (<[name := notes]> (melodies s)) s)
  | CMix items => mix_and_play items false
  | CSave filename items => mix_and_save items filename
  end.

(** What can happen to a sequencer: a line of a song file is executed, the
    host calls a public method or sets the two directories (as the
    example at the end of the file does), the sink plays a buffer to its
    end, or a file appears, changes or disappears. *)
Inductive step : Type :=
| Line (c : command)
| CallSetTempo (v : Z)
| CallMixAndPlay (items : list string) (loop : bool)
| CallMixAndSave (items : list string) (filename : string)
| CallStop
| SetDirs (sd nd : string)
| PlaybackEnds (h : nat)
| FileChange (path : string) (f : option file).

Definition exec {A : Type} (m : M A) (w : World) : World := snd (m w).

Definition do_step (w : World) (st : step) : World :=
  match st with
  | Line c => exec (parse_line c) w
  | CallSetTempo v => exec (set_tempo v) w
  | CallMixAndPlay items loop => exec (mix_and_play items loop) w
  | CallMixAndSave items filename => exec (mix_and_save items filename) w
  | CallStop => exec stop_playback w
  | SetDirs sd nd => exec (s <- get_self ;; set_self (with_dirs sd nd s)) w
  | PlaybackEnds h => emit (Finished h) w
  | FileChange path f =>
      {| self := self w; fs := partial_alter (fun _ => f) path (fs w);
         next_play_id := next_play_id w; trace := trace w |}
  end.

Definition boot (files : gmap string file) : World :=
  {| self := __init__; fs := files; next_play_id := 0%nat; trace := [] |}.

Definition run (files : gmap string file) (steps : list step) : World :=
  fold_left do_step steps (boot files).

(** The playbacks that are sounding after a trace: started, and neither
    stopped nor run to their end since. *)
Definition sounding_step (live : list nat) (e : event) : list nat :=
  match e with
  | Played h _ => h :: live
  | Stopped h | Finished h => filter (fun h' => h' ≠ h) live
  | Printed _ | Exported _ _ => live
  end.

Definition sounding (tr : list event) : list nat :=
  fold_left sounding_step tr [].

(** ** Reading the model *)

(** The path the renderers build for a name in a directory. *)
Definition wav_path (dir name : string) : string :=
  dir +:+ "/" +:+ name +:+ ".wav".

(** What [load_audio_file] returns for a path, as a function of the files. *)
Definition loaded (files : gmap string file) (path : string)
  : option AudioSegment :=
  match files !! path with
  | Some (Wav seg) => Some seg
  | Some (Unreadable _) | None => None
  end.

(** The world after some lines have been printed. *)
Definition say (lines : list string) (w : World) : World :=
  {| self := self w; fs := fs w; next_play_id := next_play_id w;
     trace := trace w ++ (Printed <$> lines) |}.

(** One beat-slot of a pattern, as the code fills it. *)
Definition pattern_slot (hit_sound : AudioSegment) (beat_ms : Z) (val : Z)
  : AudioSegment :=
  if val =? 1 then hit_sound +++ silent (beat_ms - len hit_sound)
  else silent beat_ms.

(** One beat-slot of a pattern, in the words of the specification: a
    nonzero flag is a hit, a zero flag is a rest. *)
Definition pattern_slot_spec (hit_sound : AudioSegment) (beat_ms : Z) (val : Z)
  : AudioSegment :=
  if val =? 0 then silent beat_ms
  else hit_sound +++ silent (beat_ms - len hit_sound).

(** One beat-slot of a melody, from what the note's file holds. *)
Definition note_slot (files : gmap string file) (dir : string) (beat_ms : Z)
    (note : string) : AudioSegment :=
  match loaded files (wav_path dir note) with
  | Some note_audio =>
      if truth note_audio then
        note_audio +++ silent (beat_ms - len note_audio)
      else silent beat_ms
  | None => silent beat_ms
  end.

(** What the renderers return for an item name: a pattern first, else a
    melody, else nothing. *)
Definition rendered (s : MusicSequencer) (files : gmap string file)
    (beat_ms : Z) (name : string) : option AudioSegment :=
  match patterns s !! name with
  | Some flags =>
      match loaded files (wav_path (samples_dir s) name) with
      | Some hit_sound =>
          if truth hit_sound then
            Some (concat (pattern_slot hit_sound beat_ms <$> flags))
          else None
      | None => None
      end
  | None =>
      match melodies s !! name with
      | Some notes => Some (concat (note_slot files (notes_dir s) beat_ms <$> notes))
      | None => None
      end
  end.

(** One round of the mixing loop on the measure. *)
Definition mixed_step (s : MusicSequencer) (files : gmap string file)
    (beat_ms : Z) (final : AudioSegment) (name : string) : AudioSegment :=
  match rendered s files beat_ms name with
  | Some sound => if truth sound then overlay final sound else final
  | None => final
  end.

(** The measure after the mixing loop. *)
Definition mixed (s : MusicSequencer) (files : gmap string file)
    (beat_ms : Z) (items : list string) (final : AudioSegment) : AudioSegment :=
  fold_left (mixed_step s files beat_ms) items final.

(** What [stop_playback] asks of the sink. *)
Definition stop_events (s : MusicSequencer) : list event :=
  match current_playback s with
  | Some h => [Stopped h]
  | None => []
  end.

(** ** Invariants of a run *)

(** Events that start and end no playback. *)
Definition quiet (e : event) : Prop :=
  match e with
  | Printed _ | Exported _ _ => True
  | Stopped _ | Played _ _ | Finished _ => False
  end.

(** Events that end a playback. *)
Definition halt (e : event) : Prop :=
  match e with
  | Stopped _ | Finished _ => True
  | Printed _ | Played _ _ | Exported _ _ => False
  end.

(** A stretch of trace, entered with [live] sounding, in which every
    playback starts in silence and no two ever sound together. *)
Fixpoint calm (live : list nat) (tr : list event) : Prop :=
  match tr with
  | [] => True
  | e :: tr' =>
      match e with
      | Played _ _ => live = []
      | _ => True
      end
      /\ (length (sounding_step live e) <= 1)%nat
      /\ calm (sounding_step live e) tr'
  end.

(** Whatever sounds is the playback the sequencer holds the handle of. *)
Definition held (live : list nat) (cur : option nat) : Prop :=
  forall h, h ∈ live -> cur = Some h.

Definition tempo_ok (w : World) : Prop := 20 <= tempo (self w) <= 300.

Record Inv (w : World) : Prop := {
  inv_tempo : tempo_ok w;
  inv_calm : calm [] (trace w);
  inv_held : held (sounding (trace w)) (current_playback (self w))
}.

(** The three ways a step shows in the trace. *)
Inductive effect (w w' : World) : Prop :=
| effect_quiet (q : list event) :
    Forall quiet q ->
    trace w' = trace w ++ q ->
    current_playback (self w') = current_playback (self w) ->
    effect w w'
| effect_halt (e : event) :
    halt e ->
    trace w' = trace w ++ [e] ->
    current_playback (self w') = current_playback (self w) ->
    effect w w'
| effect_play (q : list event) (seg : AudioSegment) :
    Forall quiet q ->
    trace w' = trace w ++ q ++ stop_events (self w)
               ++ [Played (next_play_id w) seg] ->
    current_playback (self w') = Some (next_play_id w) ->
    effect w w'.

(** ** Song files *)

(** What a line of a song file comes to once [parse_line] has read its
    text: nothing (a blank line, a comment, a line no expression matches),
    one command, or an exception raised before any command is reached
    (a flag that [int] rejects, a [save] line without a parenthesis, a
    line that cannot be decoded), with the text of the exception. *)
Inductive song_line : Type :=
| Skip
| Cmd (c : command)
| Bad (msg : string).

Definition commands_of (lines : list song_line) : list command :=
  omap (fun l => match l with
                 | Cmd c => Some c
                 | Skip | Bad _ => None
                 end) lines.

(** Lines that raise nothing while they are read. *)
Definition clean (l : song_line) : Prop :=
  match l with
  | Bad _ => False
  | Skip | Cmd _ => True
  end.

(** Lines that neither raise while they are read nor call the exporter,
    which raises when it cannot write the file. *)
Definition steady (l : song_line) : Prop :=
  match l with
  | Bad _ | Cmd (CSave _ _) => False
  | Skip | Cmd (CTempo _) | Cmd (CPattern _ _) | Cmd (CMelody _ _)
  | Cmd (CMix _) => True
  end.

Section SongFile.

(** [str(e)] for the exceptions of the sequencer's own code. *)
Variable str_exn : exn -> string.

(** The loop of [load_song_file] inside its [try]: the lines in order, up
    to the first exception, whose text is returned. *)
Fixpoint song_loop (lines : list song_line) (w : World)
  : option string * World :=
  match lines with
  | [] => (None, w)
  | Skip :: rest => song_loop rest w
  | Bad msg :: _ => (Some msg, w)
  | Cmd c :: rest =>
      match parse_line c w with
      | (Ok _, w') => song_loop rest w'
      | (Raise e, w') => (Some (str_exn e), w')
      end
  end.

(** [load_song_file], on the text files [songs] the host has. *)
Definition load_song_file (songs : gmap string (list song_line))
    (filename : string) : M unit :=
  fun w =>
    match songs !! filename with
    | None => print ("Error: Archivo " +:+ filename +:+ " no encontrado") w
    | Some lines =>
        match song_loop lines w with
        | (None, w') => (Ok tt, w')
        | (Some msg, w') => print ("Error procesando archivo: " +:+ msg) w'
        end
    end.

End SongFile.

(** ** What gets printed *)

(** The lines [load_audio_file] prints for a path. *)
Definition load_report (files : gmap string file) (path : string)
  : list string :=
  match files !! path with
  | Some (Wav _) => []
  | Some (Unreadable e) => ["Error cargando " +:+ path +:+ ": " +:+ e]
  | None => ["Archivo no encontrado: " +:+ path]
  end.

(** The lines one round of the mixing loop prints for an item name. *)
Definition mix_report (s : MusicSequencer) (files : gmap string file)
    (name : string) : list string :=
  match patterns s !! name with
  | Some _ => load_report files (wav_path (samples_dir s) name)
  | None =>
      match melodies s !! name with
      | Some notes =>
          concat ((fun note => load_report files (wav_path (notes_dir s) note))
                    <$> notes)
      | None => []
      end
  end.

(** ** Sample worlds *)

(** A sequencer that has read [pattern kick = [2]], beside a two
    millisecond sample for it. *)
Definition kick_world : World :=
  fold_left do_step [Line (CPattern "kick" [2])]
    (boot {[ "samples/kick.wav" := Wav [7; 9] ]}).

(** A sequencer that has read [pattern snare = [1, 0, 1, 0]], with no
    file for the sample. *)
Definition snare_world : World :=
  fold_left do_step [Line (CPattern "snare" [1; 0; 1; 0])] (boot ∅).

(** A sequencer at tempo 120 that has read [melody lead = [C4, D4, E4]];
    the files for C4 and E4 are there, the one for D4 is not. *)
Definition lead_world : World :=
  fold_left do_step [Line (CMelody "lead" ["C4"; "D4"; "E4"])]
    (boot {[ "notes/C4.wav" := Wav [11; 12; 13]; "notes/E4.wav" := Wav [31] ]}).

(** A note whose sample lasts three milliseconds, rendered at two
    milliseconds a beat. *)
Definition long_note_world : World := boot {[ "notes/A4.wav" := Wav [1; 2; 3] ]}.

(** A sequencer at tempo 300 (200 ms a beat) with a pattern [drums] and a
    melody [lead] of five notes, one more than a measure holds. *)
Definition band_world : World :=
  fold_left do_step
    [Line (CTempo 300);
     Line (CPattern "drums" [1; 0; 1; 0]);
     Line (CMelody "lead" ["C4"; "D4"; "E4"; "C4"; "E4"])]
    (boot {[ "samples/drums.wav" := Wav [100; 90; 80];
             "notes/C4.wav" := Wav [11; 12; 13];
             "notes/E4.wav" := Wav [31] ]}).

(** A sequencer whose pattern [hat] has a sample file of no duration, and
    whose note file for A4 has none either. *)
Definition empty_sample_world : World :=
  fold_left do_step [Line (CPattern "hat" [1; 1])]
    (boot {[ "samples/hat.wav" := Wav []; "notes/A4.wav" := Wav [] ]}).


(** A sequencer at tempo 90 (666 ms a beat) that has read a melody of
    nine notes, with no file for any of them. *)
Definition nine_rests_world : World :=
  fold_left do_step
    [Line (CTempo 90);
     Line (CMelody "line" ["C4"; "D4"; "E4"; "F4"; "G4"; "A4"; "B4"; "C5"; "D5"])]
    (boot ∅).

(** ** Segments *)

Section Segments.

Implicit Types seg : list Z.

Lemma len_nonneg seg : 0 <= len seg.
Proof. unfold len. lia. Qed.

Lemma len_nil : len [] = 0.
Proof. reflexivity. Qed.

Lemma len_silent d : len (silent d) = Z.max 0 d.
Proof. unfold len, silent. rewrite length_replicate. lia. Qed.

Lemma silent_nonpos d : d <= 0 -> silent d = [].
Proof.
  intros Hd. unfold silent.
  replace (Z.to_nat d) with 0%nat by lia. reflexivity.
Qed.

Lemma len_append seg1 seg2 : len (seg1 +++ seg2) = len seg1 + len seg2.
Proof. unfold len, append. rewrite length_app. lia. Qed.

Lemma truth_pos seg : truth seg = true <-> 0 < len seg.
Proof.
  unfold truth. pose proof (len_nonneg seg).
  destruct (Z.eqb_spec (len seg) 0); simpl; split; intros; try lia; congruence.
Qed.

Lemma truth_nil : truth [] = false.
Proof. reflexivity. Qed.

Lemma overlay_nil_l seg2 : overlay [] seg2 = [].
Proof. reflexivity. Qed.

Lemma overlay_nil_r seg1 : overlay seg1 [] = seg1.
Proof. unfold overlay. rewrite take_nil. simpl. by rewrite drop_0. Qed.

Lemma overlay_cons x y seg1 seg2 :
  overlay (x :: seg1) (y :: seg2) = add_sample x y :: overlay seg1 seg2.
Proof. reflexivity. Qed.

Lemma len_overlay seg1 seg2 : len (overlay seg1 seg2) = len seg1.
Proof.
  revert seg2. induction seg1 as [|x seg1 IH]; intros [|y seg2].
  - reflexivity.
  - reflexivity.
  - by rewrite overlay_nil_r.
  - rewrite overlay_cons. unfold len in *. simpl. specialize (IH seg2). lia.
Qed.

(** Sample by sample: where both segments have a sample the two are added,
    past the end of the second the first is kept, and nothing lies past
    the end of the first. *)
Lemma overlay_lookup seg1 seg2 (i : nat) :
  overlay seg1 seg2 !! i =
  match seg1 !! i with
  | Some x => Some (match seg2 !! i with
                    | Some y => add_sample x y
                    | None => x
                    end)
  | None => None
  end.
Proof.
  revert seg2 i. induction seg1 as [|x seg1 IH]; intros [|y seg2] i.
  - reflexivity.
  - reflexivity.
  - rewrite overlay_nil_r. by destruct (_ !! i).
  - rewrite overlay_cons. destruct i as [|i]; [reflexivity|]. simpl. apply IH.
Qed.

End Segments.

(** ** Printing *)

Lemma say_nil w : say [] w = w.
Proof. destruct w. unfold say. simpl. by rewrite app_nil_r. Qed.

Lemma say_say l1 l2 w : say l2 (say l1 w) = say (l1 ++ l2) w.
Proof. unfold say. simpl. by rewrite fmap_app, app_assoc. Qed.

Lemma emit_Printed line w : emit (Printed line) w = say [line] w.
Proof. reflexivity. Qed.

Lemma load_audio_file_run path w :
  exists lines, load_audio_file path w = (Ok (loaded (fs w) path), say lines w).
Proof.
  unfold load_audio_file, loaded, bind, read_file. simpl.
  destruct (fs w !! path) as [[seg|err]|].
  - exists []. by rewrite say_nil.
  - eexists [_]. reflexivity.
  - eexists [_]. reflexivity.
Qed.

Lemma load_audio_file_Wav path w seg :
  fs w !! path = Some (Wav seg) -> load_audio_file path w = (Ok (Some seg), w).
Proof. intros H. unfold load_audio_file, bind, read_file. simpl. by rewrite H. Qed.

(** ** The pattern renderer *)

Lemma fold_pattern_step hit_sound beat_ms (flags : list Z) (sound : list Z) :
  fold_left (pattern_step hit_sound beat_ms) flags sound =
  sound ++ concat (pattern_slot hit_sound beat_ms <$> flags).
Proof.
  revert sound. induction flags as [|val flags IH]; intros sound.
  - simpl. by rewrite app_nil_r.
  - simpl. rewrite IH. unfold pattern_step, pattern_slot, append.
    destruct (val =? 1); by rewrite <- app_assoc.
Qed.

Lemma getitem_Some {V : Type} (d : gmap string V) key v w :
  d !! key = Some v -> getitem d key w = (Ok v, w).
Proof. intros H. unfold getitem. by rewrite H. Qed.

Lemma contains_Some {V : Type} (d : gmap string V) key v :
  d !! key = Some v -> contains d key = true.
Proof. intros H. unfold contains. by rewrite H. Qed.

Lemma contains_None {V : Type} (d : gmap string V) key :
  d !! key = None -> contains d key = false.
Proof. intros H. unfold contains. by rewrite H. Qed.

(** What [create_pattern_sound] does on a defined pattern, whatever the
    file of its sample holds. *)
Lemma create_pattern_sound_run w name flags beat_ms :
  patterns (self w) !! name = Some flags ->
  exists lines,
    create_pattern_sound name beat_ms w =
    (Ok (match loaded (fs w) (wav_path (samples_dir (self w)) name) with
         | Some hit_sound =>
             if truth hit_sound then
               Some (concat (pattern_slot hit_sound beat_ms <$> flags))
             else None
         | None => None
         end), say lines w).
Proof.
  intros Hp. unfold create_pattern_sound, bind, get_self.
  rewrite (getitem_Some _ _ _ _ Hp).
  destruct (load_audio_file_run (wav_path (samples_dir (self w)) name) w)
    as [lines Hl].
  unfold wav_path in Hl |- *. rewrite Hl. exists lines.
  destruct (loaded _ _) as [hit_sound|]; [|reflexivity].
  destruct (truth hit_sound); [|reflexivity].
  simpl. unfold ret. by rewrite fold_pattern_step.
Qed.

(** C3, as amended: when the sample of a pattern loads and has a duration,
    the renderer returns one beat-slot per flag, in order; a flag equal to
    1 gives the sample followed by silence of [beat_ms - len sample], and
    every other flag, zero or not, gives silence of [beat_ms]. *)
Theorem create_pattern_sound_slots w name flags hit_sound beat_ms :
  patterns (self w) !! name = Some flags ->
  fs w !! wav_path (samples_dir (self w)) name = Some (Wav hit_sound) ->
  0 < len hit_sound ->
  create_pattern_sound name beat_ms w =
    (Ok (Some (concat (pattern_slot hit_sound beat_ms <$> flags))), w)
  /\ pattern_slot hit_sound beat_ms 1 =
       hit_sound ++ silent (beat_ms - len hit_sound)
  /\ (forall val, val <> 1 -> pattern_slot hit_sound beat_ms val = silent beat_ms).
Proof.
  intros Hp Hf Hlen. split; [|split].
  - unfold create_pattern_sound, bind, get_self.
    rewrite (getitem_Some _ _ _ _ Hp).
    unfold wav_path in Hf. rewrite (load_audio_file_Wav _ _ _ Hf).
    apply truth_pos in Hlen. rewrite Hlen. simpl. unfold ret.
    by rewrite fold_pattern_step.
  - reflexivity.
  - intros val Hval. unfold pattern_slot.
    destruct (Z.eqb_spec val 1); [contradiction|reflexivity].
Qed.

Lemma create_pattern_sound_slots_witness :
  create_pattern_sound "kick" 500 kick_world =
    (Ok (Some (concat (pattern_slot [7; 9] 500 <$> [2]))), kick_world)
  /\ pattern_slot [7; 9] 500 1 = [7; 9] ++ silent (500 - len [7; 9])
  /\ (forall val, val <> 1 -> pattern_slot [7; 9] 500 val = silent 500).
Proof.
  apply (create_pattern_sound_slots kick_world "kick" [2] [7; 9] 500).
  - vm_compute. reflexivity.
  - vm_compute. reflexivity.
  - vm_compute. reflexivity.
Defined.

(** C3, as stated, fails on the flag 2: the claim has it fill a hit slot,
    the renderer fills a rest. *)
Lemma flag_two_renders_a_rest :
  fst (create_pattern_sound "kick" 500 kick_world) = Ok (Some (silent 500))
  /\ concat (pattern_slot_spec [7; 9] 500 <$> [2]) = [7; 9] ++ silent 498
  /\ silent 500 <> [7; 9] ++ silent 498.
Proof.
  split; [|split].
  - vm_compute. reflexivity.
  - vm_compute. reflexivity.
  - discriminate.
Qed.

(** C5: when the one sample of a defined pattern does not load, the
    renderer returns [None] whatever the flags are, having printed one
    line; the mixer then leaves the measure as it was. *)
Theorem create_pattern_sound_load_failure w name flags beat_ms :
  patterns (self w) !! name = Some flags ->
  loaded (fs w) (wav_path (samples_dir (self w)) name) = None ->
  exists line,
    create_pattern_sound name beat_ms w = (Ok None, say [line] w)
    /\ forall final, mix_step beat_ms name final w = (Ok final, say [line] w).
Proof.
  intros Hp Hl.
  assert (exists line, create_pattern_sound name beat_ms w = (Ok None, say [line] w))
    as [line Hrun].
  { unfold create_pattern_sound, bind, get_self.
    rewrite (getitem_Some _ _ _ _ Hp).
    unfold load_audio_file, bind, read_file. unfold loaded, wav_path in Hl.
    destruct (fs w !! _) as [[seg|err]|]; [discriminate| |];
      eexists; reflexivity. }
  exists line. split; [exact Hrun|].
  intros final. unfold mix_step, bind, get_self.
  rewrite (contains_Some _ _ _ Hp), Hrun. reflexivity.
Qed.

Lemma create_pattern_sound_load_failure_witness :
  exists line,
    create_pattern_sound "snare" 500 snare_world = (Ok None, say [line] snare_world)
    /\ forall final,
         mix_step 500 "snare" final snare_world = (Ok final, say [line] snare_world).
Proof.
  apply (create_pattern_sound_load_failure snare_world "snare" [1; 0; 1; 0] 500).
  - vm_compute. reflexivity.
  - vm_compute. reflexivity.
Defined.

(** ** The melody renderer *)

Lemma melody_step_run beat_ms note (sound : list Z) w :
  exists lines,
    melody_step beat_ms note sound w =
    (Ok (sound ++ note_slot (fs w) (notes_dir (self w)) beat_ms note),
     say lines w).
Proof.
  unfold melody_step, bind, get_self.
  destruct (load_audio_file_run (wav_path (notes_dir (self w)) note) w)
    as [lines Hl].
  unfold wav_path in Hl. rewrite Hl. exists lines.
  unfold note_slot, wav_path.
  destruct (loaded _ _) as [note_audio|]; [|reflexivity].
  destruct (truth note_audio); reflexivity.
Qed.

Lemma melody_loop_run beat_ms (notes : list string) :
  forall (sound : list Z) w,
  exists lines,
    for_in notes (melody_step beat_ms) sound w =
    (Ok (sound ++ concat (note_slot (fs w) (notes_dir (self w)) beat_ms <$> notes)),
     say lines w).
Proof.
  induction notes as [|note notes IH]; intros sound w.
  - exists []. simpl. unfold ret. by rewrite say_nil, app_nil_r.
  - simpl. unfold bind.
    destruct (melody_step_run beat_ms note sound w) as [l1 H1]. rewrite H1.
    destruct (IH (sound ++ note_slot (fs w) (notes_dir (self w)) beat_ms note)
                 (say l1 w)) as [l2 H2].
    rewrite H2. exists (l1 ++ l2). simpl. by rewrite say_say, <- app_assoc.
Qed.

Lemma create_melody_sound_run w name notes beat_ms :
  melodies (self w) !! name = Some notes ->
  exists lines,
    create_melody_sound name beat_ms w =
    (Ok (Some (concat (note_slot (fs w) (notes_dir (self w)) beat_ms <$> notes))),
     say lines w).
Proof.
  intros Hm. unfold create_melody_sound, bind, get_self.
  rewrite (getitem_Some _ _ _ _ Hm).
  destruct (melody_loop_run beat_ms notes (silent 0) w) as [lines Hl].
  rewrite Hl. exists lines. reflexivity.
Qed.

Lemma note_slot_cases files dir beat_ms note :
  note_slot files dir beat_ms note =
  match files !! wav_path dir note with
  | Some (Wav seg) =>
      if truth seg then seg ++ silent (beat_ms - len seg) else silent beat_ms
  | Some (Unreadable _) | None => silent beat_ms
  end.
Proof.
  unfold note_slot, loaded.
  destruct (files !! wav_path dir note) as [[seg|err]|]; reflexivity.
Qed.

(** C4, as amended: a defined melody is rendered slot by slot, each
    note's file read on its own, in the order of the notes, and the track
    is the slots appended in that order.  A note whose load fails, or
    whose sample has no duration, fills its slot with [silent beat_ms],
    which by itself lasts [beat_ms]; a note whose sample loads fills it
    with the sample followed by [silent (beat_ms - len sample)]; no slot
    depends on the file of another note.  Nothing is said of the duration
    of the whole track. *)
Theorem create_melody_sound_slot_by_slot w name notes beat_ms :
  melodies (self w) !! name = Some notes ->
  (exists lines,
     create_melody_sound name beat_ms w =
     (Ok (Some (concat
                  ((fun note =>
                      match fs w !! wav_path (notes_dir (self w)) note with
                      | Some (Wav seg) =>
                          if truth seg then seg ++ silent (beat_ms - len seg)
                          else silent beat_ms
                      | Some (Unreadable _) | None => silent beat_ms
                      end) <$> notes))),
      say lines w))
  /\ (0 <= beat_ms -> len (silent beat_ms) = beat_ms).
Proof.
  intros Hm. split.
  - destruct (create_melody_sound_run w name notes beat_ms Hm) as [lines Hrun].
    exists lines. rewrite Hrun. do 4 f_equal.
    apply list_fmap_ext. intros i note _. apply note_slot_cases.
  - intros Hb. rewrite len_silent. lia.
Qed.

Lemma create_melody_sound_slot_by_slot_witness :
  exists lines,
    create_melody_sound "lead" 500 lead_world =
    (Ok (Some (concat
                 ((fun note =>
                     match fs lead_world
                           !! wav_path (notes_dir (self lead_world)) note with
                     | Some (Wav seg) =>
                         if truth seg then seg ++ silent (500 - len seg)
                         else silent 500
                     | Some (Unreadable _) | None => silent 500
                     end) <$> ["C4"; "D4"; "E4"]))),
     say lines lead_world).
Proof.
  destruct (create_melody_sound_slot_by_slot lead_world "lead"
              ["C4"; "D4"; "E4"] 500) as [H _].
  - vm_compute. reflexivity.
  - exact H.
Defined.

(** In frames, a melody none of whose notes loads is as many silences of
    a beat, appended. *)
Lemma frames_of_a_silent_melody beat_ms (notes : list string) :
  forall (sound : list Z) w,
    Forall (fun note =>
              loaded (fs w) (wav_path (notes_dir (self w)) note) = None) notes ->
    fst (for_in notes (PydubFrames.melody_step beat_ms) sound w) =
    Ok (sound ++ concat (replicate (length notes) (PydubFrames.silent beat_ms))).
Proof.
  induction notes as [|note notes IH]; intros sound w Hall.
  - simpl. by rewrite app_nil_r.
  - inversion Hall as [|? ? Hnote Hrest]; subst.
    simpl. unfold bind at 1. unfold PydubFrames.melody_step at 1.
    unfold bind, get_self.
    destruct (load_audio_file_run (wav_path (notes_dir (self w)) note) w)
      as [lines Hl].
    unfold wav_path in Hl. rewrite Hl.
    unfold wav_path in Hnote. rewrite Hnote. unfold ret.
    rewrite (IH _ (say lines w) Hrest). by rewrite <- app_assoc.
Qed.

Lemma length_concat_replicate (n : nat) (seg : list Z) :
  length (concat (replicate n seg)) = (n * length seg)%nat.
Proof.
  induction n as [|n IH]; [reflexivity|].
  simpl. rewrite length_app, IH. reflexivity.
Qed.

(** C4, as stated, fails on durations.  At tempo 90 a beat is 666 ms; a
    melody of nine notes none of which loads is rendered as nine silences
    of 7342 frames each, 66078 frames, which [len] reports as 5993 ms and
    not as 9 times 666, 5994. *)
Lemma nine_rests_fall_short :
  60000 / tempo (self nine_rests_world) = 666
  /\ PydubFrames.silent_frames 666 = 7342
  /\ exists track,
       fst (PydubFrames.create_melody_sound "line" 666 nine_rests_world) =
         Ok (Some track)
       /\ track = concat (replicate 9 (PydubFrames.silent 666))
       /\ Z.of_nat (length track) = 66078
       /\ PydubFrames.len track = 5993
       /\ 9 * 666 = 5994.
Proof.
  assert (PydubFrames.silent_frames 666 = 7342) as Hframes
    by (vm_compute; reflexivity).
  split; [vm_compute; reflexivity|]. split; [exact Hframes|].
  exists (concat (replicate 9 (PydubFrames.silent 666))).
  assert (Z.of_nat (length (concat (replicate 9 (PydubFrames.silent 666)))) = 66078)
    as Hlen.
  { rewrite length_concat_replicate. unfold PydubFrames.silent.
    rewrite length_replicate, Hframes. lia. }
  split; [|split; [reflexivity|split; [exact Hlen|split; [|reflexivity]]]].
  - set (notes := ["C4"; "D4"; "E4"; "F4"; "G4"; "A4"; "B4"; "C5"; "D5"]).
    assert (melodies (self nine_rests_world) !! "line" = Some notes) as Hm
      by (vm_compute; reflexivity).
    assert (Forall (fun note =>
                      loaded (fs nine_rests_world)
                        (wav_path (notes_dir (self nine_rests_world)) note) = None)
              notes) as Hall
      by (repeat constructor).
    pose proof (frames_of_a_silent_melody 666 notes (PydubFrames.silent 0)
                  nine_rests_world Hall) as Hloop.
    unfold PydubFrames.create_melody_sound, bind, get_self.
    rewrite (getitem_Some _ _ _ _ Hm).
    destruct (for_in notes (PydubFrames.melody_step 666) (PydubFrames.silent 0)
                nine_rests_world) as [r w'].
    simpl in Hloop. subst r. reflexivity.
  - unfold PydubFrames.len. rewrite Hlen. vm_compute. reflexivity.
Qed.

(** The melody [C4, D4, E4] with D4 missing, at 500 ms a beat: 1500 ms, the
    middle 500 of them silent, one line printed for the missing file. *)
Example create_melody_sound_missing_D4 :
  create_melody_sound "lead" 500 lead_world =
  (Ok (Some (([11; 12; 13] ++ silent 497) ++ silent 500 ++ ([31] ++ silent 499))),
   say ["Archivo no encontrado: notes/D4.wav"] lead_world).
Proof. vm_compute. reflexivity. Qed.

(** ** Samples longer than a beat *)

(** C8: when a sample lasts longer than a beat, the duration asked of
    [silent] is negative and the padding it returns is empty, so a hit slot
    and a note slot are the sample alone and last as long as it does. *)
Theorem long_sample_fills_slot w note sample beat_ms (sound : list Z) :
  beat_ms < len sample ->
  fs w !! wav_path (notes_dir (self w)) note = Some (Wav sample) ->
  beat_ms - len sample < 0
  /\ silent (beat_ms - len sample) = []
  /\ pattern_step sample beat_ms sound 1 = sound ++ sample
  /\ len (pattern_slot sample beat_ms 1) = len sample
  /\ melody_step beat_ms note sound w = (Ok (sound ++ sample), w)
  /\ len (note_slot (fs w) (notes_dir (self w)) beat_ms note) = len sample.
Proof.
  intros Hlong Hf.
  assert (silent (beat_ms - len sample) = []) as Hpad
    by (apply silent_nonpos; lia).
  repeat split.
  - lia.
  - exact Hpad.
  - unfold pattern_step, append. simpl. by rewrite Hpad, app_nil_r.
  - unfold pattern_slot, append. simpl. by rewrite Hpad, app_nil_r.
  - unfold melody_step, bind, get_self. unfold wav_path in Hf.
    rewrite (load_audio_file_Wav _ _ _ Hf). unfold append, ret.
    destruct (truth sample) eqn:Ht.
    + by rewrite Hpad, app_nil_r.
    + assert (len sample = 0) as Hz.
      { pose proof (len_nonneg sample).
        destruct (Z.eq_dec (len sample) 0); [done|].
        assert (truth sample = true) by (apply truth_pos; lia). congruence. }
      destruct sample; [|discriminate Hz].
      rewrite app_nil_r. rewrite silent_nonpos; [by rewrite app_nil_r|].
      change (len []) with 0 in Hlong. lia.
  - unfold note_slot, loaded. rewrite Hf. unfold append.
    destruct (truth sample) eqn:Ht.
    + by rewrite Hpad, app_nil_r.
    + assert (len sample = 0) as Hz.
      { pose proof (len_nonneg sample).
        destruct (Z.eq_dec (len sample) 0); [done|].
        assert (truth sample = true) by (apply truth_pos; lia). congruence. }
      rewrite len_silent. lia.
Qed.

Lemma long_sample_fills_slot_witness :
  2 - len [1; 2; 3] < 0
  /\ silent (2 - len [1; 2; 3]) = []
  /\ pattern_step [1; 2; 3] 2 [] 1 = [] ++ [1; 2; 3]
  /\ len (pattern_slot [1; 2; 3] 2 1) = len [1; 2; 3]
  /\ melody_step 2 "A4" [] long_note_world = (Ok ([] ++ [1; 2; 3]), long_note_world)
  /\ len (note_slot (fs long_note_world) (notes_dir (self long_note_world)) 2 "A4")
     = len [1; 2; 3].
Proof.
  apply (long_sample_fills_slot long_note_world "A4" [1; 2; 3] 2 []).
  - vm_compute. reflexivity.
  - vm_compute. reflexivity.
Defined.

(** ** The mixer *)

Lemma mix_step_run beat_ms name (final : list Z) w :
  exists lines,
    mix_step beat_ms name final w =
    (Ok (mixed_step (self w) (fs w) beat_ms final name), say lines w).
Proof.
  unfold mix_step, mixed_step, rendered, bind, get_self.
  destruct (patterns (self w) !! name) as [flags|] eqn:Hp.
  - rewrite (contains_Some _ _ _ Hp).
    destruct (create_pattern_sound_run w name flags beat_ms Hp) as [lines Hr].
    rewrite Hr. exists lines.
    destruct (loaded _ _) as [hit_sound|]; [|reflexivity].
    destruct (truth hit_sound); [|reflexivity].
    destruct (truth _); reflexivity.
  - rewrite (contains_None _ _ Hp).
    destruct (melodies (self w) !! name) as [notes|] eqn:Hm.
    + rewrite (contains_Some _ _ _ Hm).
      destruct (create_melody_sound_run w name notes beat_ms Hm) as [lines Hr].
      rewrite Hr. exists lines. destruct (truth _); reflexivity.
    + rewrite (contains_None _ _ Hm). exists []. unfold ret.
      by rewrite say_nil.
Qed.

Lemma mix_loop_run beat_ms (items : list string) :
  forall (final : list Z) w,
  exists lines,
    for_in items (mix_step beat_ms) final w =
    (Ok (mixed (self w) (fs w) beat_ms items final), say lines w).
Proof.
  induction items as [|name items IH]; intros final w.
  - exists []. simpl. unfold ret. by rewrite say_nil.
  - simpl. unfold bind.
    destruct (mix_step_run beat_ms name final w) as [l1 H1]. rewrite H1.
    destruct (IH (mixed_step (self w) (fs w) beat_ms final name) (say l1 w))
      as [l2 H2].
    rewrite H2. exists (l1 ++ l2). by rewrite say_say.
Qed.

Lemma len_mixed_step s files beat_ms (final : list Z) name :
  len (mixed_step s files beat_ms final name) = len final.
Proof.
  unfold mixed_step. destruct (rendered _ _ _ _) as [sound|]; [|reflexivity].
  destruct (truth sound); [apply len_overlay|reflexivity].
Qed.

Lemma len_mixed s files beat_ms (items : list string) :
  forall final : list Z, len (mixed s files beat_ms items final) = len final.
Proof.
  unfold mixed. induction items as [|name items IH]; intros final; [reflexivity|].
  simpl. rewrite IH. apply len_mixed_step.
Qed.

Lemma floordiv_run a b w : b <> 0 -> floordiv a b w = (Ok (a / b), w).
Proof.
  intros Hb. unfold floordiv. destruct (Z.eqb_spec b 0); [contradiction|].
  reflexivity.
Qed.

Lemma stop_playback_run w :
  stop_playback w =
  (Ok tt, {| self := self w; fs := fs w; next_play_id := next_play_id w;
             trace := trace w ++ stop_events (self w) |}).
Proof.
  unfold stop_playback, stop_events, bind, get_self.
  destruct (current_playback (self w)); [reflexivity|].
  unfold ret. destruct w. simpl. by rewrite app_nil_r.
Qed.

(** The whole of [mix_and_play] on a request that is not empty. *)
Lemma mix_and_play_run w items loop :
  items <> [] ->
  tempo (self w) <> 0 ->
  let beat_ms := 60000 / tempo (self w) in
  exists lines,
    mix_and_play items loop w =
    (Ok tt,
     {| self := with_current_playback (Some (next_play_id w)) (self w);
        fs := fs w;
        next_play_id := S (next_play_id w);
        trace := trace w ++ (Printed <$> lines) ++ stop_events (self w)
                 ++ [Played (next_play_id w)
                       (mixed (self w) (fs w) beat_ms items (silent (beat_ms * 4)))] |}).
Proof.
  intros Hne Ht beat_ms. destruct items as [|name items]; [done|].
  unfold mix_and_play, bind, get_self.
  rewrite (floordiv_run _ _ _ Ht). fold beat_ms.
  destruct (mix_loop_run beat_ms (name :: items) (silent (beat_ms * 4)) w)
    as [lines Hl].
  rewrite Hl, stop_playback_run. exists lines. simpl.
  unfold set_self. simpl. by rewrite <- !app_assoc.
Qed.

(** The whole of [mix_and_save]. *)
Lemma mix_and_save_run w items filename :
  tempo (self w) <> 0 ->
  let beat_ms := 60000 / tempo (self w) in
  let final := mixed (self w) (fs w) beat_ms items (silent (beat_ms * 4)) in
  exists lines,
    mix_and_save items filename w =
    (Ok tt,
     {| self := self w;
        fs := <[filename := Wav final]> (fs w);
        next_play_id := next_play_id w;
        trace := trace w ++ (Printed <$> lines)
                 ++ [Exported filename final;
                     Printed ("Mezcla guardada como " +:+ filename)] |}).
Proof.
  intros Ht beat_ms final.
  unfold mix_and_save, bind, get_self.
  rewrite (floordiv_run _ _ _ Ht). fold beat_ms.
  destruct (mix_loop_run beat_ms items (silent (beat_ms * 4)) w) as [lines Hl].
  rewrite Hl. exists lines. unfold export, print, emit. simpl.
  fold final. by rewrite <- !app_assoc.
Qed.

(** C6: at a positive tempo, a mix request that is not empty plays, and
    saves, a buffer that lasts exactly [4 * beat_ms].  The measure starts
    as that much silence; each round of the loop either leaves it alone or
    overlays a track on it from its first sample; and an overlay keeps the
    duration of the measure: samples of the track past the end of the
    measure are dropped, samples of the measure past the end of the track
    are kept as they were. *)
Theorem mix_lasts_one_measure w items loop filename :
  items <> [] ->
  0 < tempo (self w) ->
  let beat_ms := 60000 / tempo (self w) in
  (exists final lines,
     len final = 4 * beat_ms
     /\ mix_and_play items loop w =
        (Ok tt,
         {| self := with_current_playback (Some (next_play_id w)) (self w);
            fs := fs w;
            next_play_id := S (next_play_id w);
            trace := trace w ++ (Printed <$> lines) ++ stop_events (self w)
                     ++ [Played (next_play_id w) final] |}))
  /\ (exists final lines,
        len final = 4 * beat_ms
        /\ mix_and_save items filename w =
           (Ok tt,
            {| self := self w;
               fs := <[filename := Wav final]> (fs w);
               next_play_id := next_play_id w;
               trace := trace w ++ (Printed <$> lines)
                        ++ [Exported filename final;
                            Printed ("Mezcla guardada como " +:+ filename)] |}))
  /\ len (silent (beat_ms * 4)) = 4 * beat_ms
  /\ (forall name (final : list Z) w1,
        exists final' lines,
          mix_step beat_ms name final w1 = (Ok final', say lines w1)
          /\ (final' = final \/ exists track, final' = overlay final track))
  /\ (forall (measure track : list Z),
        len (overlay measure track) = len measure
        /\ forall i : nat,
             overlay measure track !! i =
             match measure !! i with
             | Some x => Some (match track !! i with
                               | Some y => add_sample x y
                               | None => x
                               end)
             | None => None
             end).
Proof.
  intros Hne Ht beat_ms.
  assert (0 <= beat_ms) as Hb by (apply Z.div_pos; lia).
  assert (len (silent (beat_ms * 4)) = 4 * beat_ms) as Hsil
    by (rewrite len_silent; lia).
  assert (tempo (self w) <> 0) as Ht0 by lia.
  repeat split.
  - destruct (mix_and_play_run w items loop Hne Ht0) as [lines Hrun].
    eexists _, lines. split; [|exact Hrun].
    fold beat_ms. by rewrite len_mixed.
  - destruct (mix_and_save_run w items filename Ht0) as [lines Hrun].
    eexists _, lines. split; [|exact Hrun].
    fold beat_ms. by rewrite len_mixed.
  - exact Hsil.
  - intros name final w1.
    destruct (mix_step_run beat_ms name final w1) as [lines Hrun].
    eexists _, lines. split; [exact Hrun|].
    unfold mixed_step. destruct (rendered _ _ _ _) as [sound|]; [|by left].
    destruct (truth sound); [right; by exists sound|by left].
  - apply len_overlay.
  - apply overlay_lookup.
Qed.

Lemma mix_lasts_one_measure_witness :
  (exists final lines,
     len final = 4 * 200
     /\ mix_and_play ["drums"; "lead"] false band_world =
        (Ok tt,
         {| self := with_current_playback (Some (next_play_id band_world))
                      (self band_world);
            fs := fs band_world;
            next_play_id := S (next_play_id band_world);
            trace := trace band_world ++ (Printed <$> lines)
                     ++ stop_events (self band_world)
                     ++ [Played (next_play_id band_world) final] |}))
  /\ (exists final lines,
        len final = 4 * 200
        /\ mix_and_save ["drums"; "lead"] "out.wav" band_world =
           (Ok tt,
            {| self := self band_world;
               fs := <["out.wav" := Wav final]> (fs band_world);
               next_play_id := next_play_id band_world;
               trace := trace band_world ++ (Printed <$> lines)
                        ++ [Exported "out.wav" final;
                            Printed ("Mezcla guardada como " +:+ "out.wav")] |})).
Proof.
  pose proof (mix_lasts_one_measure band_world ["drums"; "lead"] false "out.wav")
    as H.
  destruct H as (Hplay & Hsave & _).
  - discriminate.
  - vm_compute. reflexivity.
  - split; [exact Hplay|exact Hsave].
Defined.

(** The measure mixed in that world: 800 ms; the fifth note of [lead] is cut
    off; the first slot carries the drum hit added to the first note. *)
Example band_mix_samples :
  exists final,
    trace (exec (mix_and_play ["drums"; "lead"] false) band_world) =
      [Printed "Archivo no encontrado: notes/D4.wav"; Played 0%nat final]
    /\ len final = 800
    /\ take 4 final = [111; 102; 93; 0]
    /\ take 4 (drop 400 final) = [131; 90; 80; 0].
Proof. eexists. vm_compute. repeat split; reflexivity. Qed.

(** C7: at a tempo [t] between 20 and 300 the division does not raise, the
    beat is the floor of 60000 over [t] (500 at 120, 666 at 90), and each
    mix renders with the beat of the tempo the sequencer has when the mix
    is called: after a first mix and a change of tempo to [t'], the next
    mix renders with the floor of 60000 over [t']. *)
Theorem beat_duration_per_mix w t items loop filename :
  tempo (self w) = t ->
  20 <= t <= 300 ->
  floordiv 60000 (tempo (self w)) w = (Ok (60000 / t), w)
  /\ (60000 / t) * t <= 60000 < (60000 / t + 1) * t
  /\ (exists lines,
        trace (exec (mix_and_save items filename) w) =
        trace w ++ (Printed <$> lines)
        ++ [Exported filename
              (mixed (self w) (fs w) (60000 / t) items (silent (60000 / t * 4)));
            Printed ("Mezcla guardada como " +:+ filename)])
  /\ (items <> [] ->
      exists lines,
        trace (exec (mix_and_play items loop) w) =
        trace w ++ (Printed <$> lines) ++ stop_events (self w)
        ++ [Played (next_play_id w)
              (mixed (self w) (fs w) (60000 / t) items (silent (60000 / t * 4)))])
  /\ (forall t', 20 <= t' <= 300 ->
      let w1 := exec (set_tempo t') (exec (mix_and_save items filename) w) in
      exists lines,
        trace (exec (mix_and_save items filename) w1) =
        trace w1 ++ (Printed <$> lines)
        ++ [Exported filename
              (mixed (self w1) (fs w1) (60000 / t') items (silent (60000 / t' * 4)));
            Printed ("Mezcla guardada como " +:+ filename)])
  /\ 60000 / 120 = 500
  /\ 60000 / 90 = 666.
Proof.
  intros Ht Hr.
  assert (tempo (self w) <> 0) as Ht0 by lia.
  split; [rewrite <- Ht; by apply floordiv_run|].
  split.
  { pose proof (Z.mul_div_le 60000 t ltac:(lia)).
    pose proof (Z.mul_succ_div_gt 60000 t ltac:(lia)). lia. }
  split.
  { destruct (mix_and_save_run w items filename Ht0) as [lines Hrun].
    exists lines. unfold exec. rewrite Hrun. simpl. by rewrite Ht. }
  split.
  { intros Hne.
    destruct (mix_and_play_run w items loop Hne Ht0) as [lines Hrun].
    exists lines. unfold exec. rewrite Hrun. simpl. by rewrite Ht. }
  split; [|split; reflexivity].
  intros t' Hr' w1.
  assert (tempo (self w1) = t') as Ht1.
  { unfold w1, exec, set_tempo.
    destruct (Z.leb_spec 20 t'); [|lia]. destruct (Z.leb_spec t' 300); [|lia].
    reflexivity. }
  destruct (mix_and_save_run w1 items filename ltac:(lia)) as [lines Hrun].
  exists lines. unfold exec at 1. rewrite Hrun. simpl. by rewrite Ht1.
Qed.

Lemma beat_duration_per_mix_witness :
  floordiv 60000 (tempo (self band_world)) band_world = (Ok (60000 / 300), band_world)
  /\ (60000 / 300) * 300 <= 60000 < (60000 / 300 + 1) * 300.
Proof.
  pose proof (beat_duration_per_mix band_world 300 ["drums"] false "out.wav")
    as H.
  destruct H as (Hdiv & Hfloor & _).
  - vm_compute. reflexivity.
  - lia.
  - split; [exact Hdiv|exact Hfloor].
Defined.

(** C1, on the code: an empty request to [mix_and_play] prints the error
    and does nothing else, whereas an empty request to [mix_and_save] is
    not turned away: on a fresh sequencer it exports two seconds of
    silence and reports the file as saved. *)
Theorem empty_mix_request files loop filename w :
  mix_and_play [] loop w = (Ok tt, say ["Error: No hay items para mezclar"] w)
  /\ mix_and_save [] filename (boot files) =
     (Ok tt,
      {| self := __init__;
         fs := <[filename := Wav (silent 2000)]> files;
         next_play_id := 0;
         trace := [Exported filename (silent 2000);
                   Printed ("Mezcla guardada como " +:+ filename)] |}).
Proof. split; reflexivity. Qed.

(** ** The tempo clock *)

(** C2: [set_tempo] never raises; a value from 20 to 300 becomes the tempo
    and nothing is printed; any other value leaves the tempo as it was and
    prints the warning; nothing else in the sequencer changes.  So 20 and
    300 are taken, 19 and 301 are not. *)
Theorem set_tempo_commits_or_keeps v w :
  fst (set_tempo v w) = Ok tt
  /\ (20 <= v <= 300 ->
      tempo (self (exec (set_tempo v) w)) = v
      /\ trace (exec (set_tempo v) w) = trace w)
  /\ (v < 20 \/ 300 < v ->
      tempo (self (exec (set_tempo v) w)) = tempo (self w)
      /\ trace (exec (set_tempo v) w) =
         trace w ++ [Printed ("Tempo " +:+ pretty v +:+
                      " fuera de rango (20-300). Usando valor por defecto 120.")])
  /\ exec (set_tempo v) w =
     {| self := with_tempo (tempo (self (exec (set_tempo v) w))) (self w);
        fs := fs w; next_play_id := next_play_id w;
        trace := trace (exec (set_tempo v) w) |}
  /\ tempo (self (exec (set_tempo 20) w)) = 20
  /\ tempo (self (exec (set_tempo 300) w)) = 300
  /\ tempo (self (exec (set_tempo 19) w)) = tempo (self w)
  /\ tempo (self (exec (set_tempo 301) w)) = tempo (self w).
Proof.
  unfold exec, set_tempo.
  destruct (Z.leb_spec 20 v), (Z.leb_spec v 300); simpl;
    repeat split; intros; try lia; try reflexivity.
  all: destruct w as [[] ? ? ?]; reflexivity.
Qed.

Lemma set_tempo_commits_or_keeps_witness :
  tempo (self (exec (set_tempo 90) (boot ∅))) = 90
  /\ tempo (self (exec (set_tempo 301) (exec (set_tempo 90) (boot ∅)))) = 90
  /\ trace (exec (set_tempo 301) (exec (set_tempo 90) (boot ∅))) =
     [Printed "Tempo 301 fuera de rango (20-300). Usando valor por defecto 120."].
Proof.
  destruct (set_tempo_commits_or_keeps 90 (boot ∅)) as (_ & Hin & _).
  destruct (set_tempo_commits_or_keeps 301 (exec (set_tempo 90) (boot ∅)))
    as (_ & _ & Hout & _).
  destruct (Hin ltac:(lia)) as [Ht _].
  destruct (Hout ltac:(lia)) as [Hkeep Hwarn].
  split; [exact Ht|]. split; [by rewrite Hkeep|].
  rewrite Hwarn. vm_compute. reflexivity.
Defined.

Lemma set_tempo_tempo_ok v w : tempo_ok w -> tempo_ok (exec (set_tempo v) w).
Proof.
  unfold tempo_ok, exec, set_tempo.
  destruct (Z.leb_spec 20 v), (Z.leb_spec v 300); simpl; lia.
Qed.

(** ** Playback *)

Lemma sounding_app tr new :
  sounding (tr ++ new) = fold_left sounding_step new (sounding tr).
Proof. unfold sounding. apply fold_left_app. Qed.

Lemma calm_app a : forall live b,
  calm live a -> calm (fold_left sounding_step a live) b -> calm live (a ++ b).
Proof.
  induction a as [|e a IH]; intros live b Ha Hb; [exact Hb|].
  simpl in *. destruct Ha as (Hstart & Hlen & Ha). auto.
Qed.

Lemma quiet_step e live : quiet e -> sounding_step live e = live.
Proof. by destruct e. Qed.

Lemma quiet_run q : Forall quiet q ->
  forall live, fold_left sounding_step q live = live.
Proof.
  induction 1 as [|e q He _ IH]; intros live; [reflexivity|].
  simpl. by rewrite (quiet_step _ _ He).
Qed.

Lemma quiet_calm q : Forall quiet q ->
  forall live, (length live <= 1)%nat -> calm live q.
Proof.
  induction 1 as [|e q He _ IH]; intros live Hlen; [exact I|].
  simpl. rewrite (quiet_step _ _ He). split; [by destruct e|]. auto.
Qed.

Lemma quiet_prints lines : Forall quiet (Printed <$> lines).
Proof. apply Forall_fmap, Forall_forall. by intros. Qed.

Lemma halt_step e live : halt e ->
  exists h, sounding_step live e = filter (fun h' => h' ≠ h) live.
Proof. destruct e; try done; intros _; eexists; reflexivity. Qed.

Lemma calm_short tr : forall live,
  (length live <= 1)%nat -> calm live tr ->
  (length (fold_left sounding_step tr live) <= 1)%nat.
Proof.
  induction tr as [|e tr IH]; intros live Hlen Hc; [exact Hlen|].
  simpl in *. destruct Hc as (_ & Hlen' & Hc). auto.
Qed.

Lemma calm_prefix tr : forall live p,
  (length live <= 1)%nat -> calm live tr -> p `prefix_of` tr ->
  (length (fold_left sounding_step p live) <= 1)%nat.
Proof.
  induction tr as [|e tr IH]; intros live p Hlen Hc Hp.
  - apply prefix_nil_inv in Hp as ->. exact Hlen.
  - destruct p as [|e' p]; [exact Hlen|].
    pose proof (prefix_cons_inv_1 _ _ _ _ Hp) as ->.
    apply prefix_cons_inv_2 in Hp.
    simpl in *. destruct Hc as (_ & Hlen' & Hc). auto.
Qed.

Lemma calm_play_in_silence tr : forall live p h seg,
  calm live tr -> p ++ [Played h seg] `prefix_of` tr ->
  fold_left sounding_step p live = [].
Proof.
  induction tr as [|e tr IH]; intros live p h seg Hc Hp.
  - apply prefix_nil_inv in Hp. by destruct p.
  - simpl in Hc. destruct Hc as (Hstart & _ & Hc).
    destruct p as [|e' p]; simpl in Hp.
    + pose proof (prefix_cons_inv_1 _ _ _ _ Hp) as <-. exact Hstart.
    + pose proof (prefix_cons_inv_1 _ _ _ _ Hp) as ->.
      apply prefix_cons_inv_2 in Hp. simpl. eauto.
Qed.

Lemma held_nil cur : held [] cur.
Proof. intros h Hh. by apply elem_of_nil in Hh. Qed.

Lemma held_None live : held live None -> live = [].
Proof.
  intros Hh. destruct live as [|h live]; [reflexivity|].
  specialize (Hh h ltac:(left)). discriminate.
Qed.

Lemma held_filter live cur h : held live cur ->
  held (filter (fun h' => h' ≠ h) live) cur.
Proof.
  intros Hh h' Hin. apply list_elem_of_filter in Hin as [_ Hin]. auto.
Qed.

Lemma held_Some_filter live h : held live (Some h) ->
  filter (fun h' => h' ≠ h) live = [].
Proof.
  induction live as [|x live IH]; intros Hh; [reflexivity|].
  assert (x = h) as -> by (specialize (Hh x ltac:(left)); congruence).
  rewrite filter_cons_False by (intros Hne; by apply Hne).
  apply IH. intros h' Hin. apply Hh. by right.
Qed.

(** Stopping what is held leaves nothing sounding. *)
Lemma stop_events_silence s live :
  held live (current_playback s) ->
  fold_left sounding_step (stop_events s) live = [].
Proof.
  unfold stop_events. destruct (current_playback s) as [h|]; simpl.
  - apply held_Some_filter.
  - apply held_None.
Qed.

Lemma stop_events_calm s live :
  (length live <= 1)%nat -> calm live (stop_events s).
Proof.
  intros Hlen. unfold stop_events.
  destruct (current_playback s) as [h|]; simpl; [|exact I].
  repeat split. pose proof (length_filter (fun h' => h' ≠ h) live). lia.
Qed.

(** A step of any of the three kinds keeps the trace calm and the sounding
    playback in hand. *)
Lemma effect_keeps w w' :
  effect w w' ->
  calm [] (trace w) ->
  held (sounding (trace w)) (current_playback (self w)) ->
  calm [] (trace w') /\ held (sounding (trace w')) (current_playback (self w')).
Proof.
  intros Heff Hc Hh.
  assert (length (sounding (trace w)) <= 1)%nat as Hlen
    by (apply calm_short; [simpl; lia|exact Hc]).
  destruct Heff as [q Hq Htr Hcur|e He Htr Hcur|q seg Hq Htr Hcur];
    rewrite Htr, Hcur.
  - split.
    + apply calm_app; [exact Hc|]. by apply quiet_calm.
    + by rewrite sounding_app, quiet_run.
  - destruct (halt_step e (sounding (trace w)) He) as [h Hstep].
    split.
    + apply calm_app; [exact Hc|]. fold (sounding (trace w)).
      simpl. rewrite Hstep.
      repeat split; [by destruct e|].
      pose proof (length_filter (fun h' => h' ≠ h) (sounding (trace w))). lia.
    + rewrite sounding_app. simpl. rewrite Hstep. by apply held_filter.
  - assert (fold_left sounding_step (q ++ stop_events (self w))
              (sounding (trace w)) = []) as Hsil.
    { rewrite fold_left_app, (quiet_run q Hq).
      by apply stop_events_silence. }
    split.
    + apply calm_app; [exact Hc|].
      rewrite app_assoc. apply calm_app.
      * apply calm_app; [by apply quiet_calm|].
        rewrite (quiet_run q Hq). by apply stop_events_calm.
      * fold (sounding (trace w)). rewrite Hsil. simpl. repeat split. lia.
    + rewrite sounding_app, (app_assoc q), fold_left_app, Hsil. simpl.
      intros h Hin. apply list_elem_of_singleton in Hin as ->. reflexivity.
Qed.

Lemma set_tempo_effect v w : effect w (exec (set_tempo v) w).
Proof.
  unfold exec, set_tempo.
  destruct ((20 <=? v) && (v <=? 300)); simpl.
  - apply (effect_quiet _ _ []); [constructor| |reflexivity].
    simpl. by rewrite app_nil_r.
  - eapply effect_quiet; [|reflexivity|reflexivity].
    repeat constructor.
Qed.

Lemma mix_and_play_effect items loop w :
  tempo_ok w ->
  tempo_ok (exec (mix_and_play items loop) w)
  /\ effect w (exec (mix_and_play items loop) w).
Proof.
  intros Ht. destruct items as [|name items].
  - split; [exact Ht|].
    eapply effect_quiet; [|reflexivity|reflexivity].
    repeat constructor.
  - destruct (mix_and_play_run w (name :: items) loop) as [lines Hrun];
      [done|unfold tempo_ok in Ht; lia|].
    unfold exec. rewrite Hrun. simpl. split; [exact Ht|].
    eapply (effect_play _ _ (Printed <$> lines));
      [apply quiet_prints|reflexivity|reflexivity].
Qed.

Lemma mix_and_save_effect items filename w :
  tempo_ok w ->
  tempo_ok (exec (mix_and_save items filename) w)
  /\ effect w (exec (mix_and_save items filename) w).
Proof.
  intros Ht.
  destruct (mix_and_save_run w items filename) as [lines Hrun];
    [unfold tempo_ok in Ht; lia|].
  unfold exec. rewrite Hrun. simpl. split; [exact Ht|].
  eapply (effect_quiet _ _ ((Printed <$> lines) ++ [_; _]));
    [|reflexivity|reflexivity].
  apply Forall_app. split; [apply quiet_prints|]. repeat constructor.
Qed.

Lemma stop_playback_effect w : effect w (exec stop_playback w).
Proof.
  unfold exec. rewrite stop_playback_run. simpl. unfold stop_events.
  destruct (current_playback (self w)) as [h|].
  - by apply (effect_halt _ _ (Stopped h)).
  - by apply (effect_quiet _ _ []).
Qed.

Lemma do_step_effect w st :
  tempo_ok w -> tempo_ok (do_step w st) /\ effect w (do_step w st).
Proof.
  intros Ht. destruct st as [c|v|items loop|items filename| |sd nd|h|path f];
    simpl.
  - destruct c as [v|name vals|name notes|items|filename items]; simpl.
    + split; [by apply set_tempo_tempo_ok|apply set_tempo_effect].
    + split; [exact Ht|].
      apply (effect_quiet _ _ []); [constructor| |reflexivity].
      simpl. by rewrite app_nil_r.
    + split; [exact Ht|].
      apply (effect_quiet _ _ []); [constructor| |reflexivity].
      simpl. by rewrite app_nil_r.
    + by apply mix_and_play_effect.
    + by apply mix_and_save_effect.
  - split; [by apply set_tempo_tempo_ok|apply set_tempo_effect].
  - by apply mix_and_play_effect.
  - by apply mix_and_save_effect.
  - split; [|apply stop_playback_effect].
    unfold exec. rewrite stop_playback_run. exact Ht.
  - split; [exact Ht|].
    apply (effect_quiet _ _ []); [constructor| |reflexivity].
    simpl. by rewrite app_nil_r.
  - split; [exact Ht|]. by apply (effect_halt _ _ (Finished h)).
  - split; [exact Ht|].
    apply (effect_quiet _ _ []); [constructor| |reflexivity].
    simpl. by rewrite app_nil_r.
Qed.

Lemma do_step_Inv w st : Inv w -> Inv (do_step w st).
Proof.
  intros [Ht Hc Hh].
  destruct (do_step_effect w st Ht) as [Ht' Heff].
  destruct (effect_keeps _ _ Heff Hc Hh) as [Hc' Hh'].
  by constructor.
Qed.

Lemma boot_Inv files : Inv (boot files).
Proof.
  constructor.
  - unfold tempo_ok. simpl. lia.
  - exact I.
  - apply held_nil.
Qed.

Lemma fold_do_step_Inv steps : forall w, Inv w -> Inv (fold_left do_step steps w).
Proof.
  induction steps as [|st steps IH]; intros w Hw; [exact Hw|].
  simpl. apply IH. by apply do_step_Inv.
Qed.

Lemma run_Inv files steps : Inv (run files steps).
Proof. apply fold_do_step_Inv, boot_Inv. Qed.

(** C10: the sequencer starts at tempo 120, and after any run its tempo
    lies between 20 and 300; so the division that gives the beat has a
    positive divisor, does not raise, and gives a beat between 200 and
    3000 milliseconds. *)
Theorem tempo_always_in_range files steps :
  tempo __init__ = 120
  /\ 20 <= tempo (self (run files steps)) <= 300
  /\ exists beat_ms,
       floordiv 60000 (tempo (self (run files steps))) (run files steps) =
         (Ok beat_ms, run files steps)
       /\ 200 <= beat_ms <= 3000.
Proof.
  destruct (run_Inv files steps) as [Ht _ _]. unfold tempo_ok in Ht.
  split; [reflexivity|]. split; [exact Ht|].
  exists (60000 / tempo (self (run files steps))). split.
  - apply floordiv_run. lia.
  - split.
    + change 200 with (60000 / 300). apply Z.div_le_compat_l; lia.
    + change 3000 with (60000 / 20). apply Z.div_le_compat_l; lia.
Qed.

Lemma stop_playback_self w : self (exec stop_playback w) = self w.
Proof. unfold exec. by rewrite stop_playback_run. Qed.

Lemma stop_playback_trace w :
  trace (exec stop_playback w) = trace w ++ stop_events (self w).
Proof. unfold exec. by rewrite stop_playback_run. Qed.

(** C9: along any run, at every point of the trace at most one playback is
    sounding, and every playback is started with none sounding; what
    sounds at the end is the playback whose handle the sequencer holds.
    A mix that plays first stops the held handle, which silences the
    sink, and only then starts the new buffer and records its handle.
    [stop_playback] without a handle does nothing at all; after a stop
    nothing sounds, and a second stop changes neither the sequencer nor
    what sounds. *)
Theorem one_playback_at_a_time files steps :
  let w := run files steps in
  (forall p, p `prefix_of` trace w -> (length (sounding p) <= 1)%nat)
  /\ (forall p h seg, p ++ [Played h seg] `prefix_of` trace w -> sounding p = [])
  /\ (forall h, h ∈ sounding (trace w) -> current_playback (self w) = Some h)
  /\ (forall items loop, items <> [] ->
      exists lines final,
        trace (exec (mix_and_play items loop) w) =
          trace w ++ (Printed <$> lines) ++ stop_events (self w)
          ++ [Played (next_play_id w) final]
        /\ sounding (trace w ++ (Printed <$> lines) ++ stop_events (self w)) = []
        /\ sounding (trace (exec (mix_and_play items loop) w)) = [next_play_id w]
        /\ current_playback (self (exec (mix_and_play items loop) w)) =
           Some (next_play_id w))
  /\ (current_playback (self w) = None -> stop_playback w = (Ok tt, w))
  /\ sounding (trace (exec stop_playback w)) = []
  /\ sounding (trace (exec stop_playback (exec stop_playback w))) = []
  /\ self (exec stop_playback (exec stop_playback w)) = self w
  /\ fs (exec stop_playback (exec stop_playback w)) = fs w.
Proof.
  intros w. destruct (run_Inv files steps) as [Ht Hc Hh]. fold w in Ht, Hc, Hh.
  assert (forall q, Forall quiet q ->
            sounding (trace w ++ q ++ stop_events (self w)) = []) as Hsil.
  { intros q Hq. rewrite sounding_app, fold_left_app, (quiet_run q Hq).
    by apply stop_events_silence. }
  assert (sounding (trace w ++ stop_events (self w)) = []) as Hstop
    by apply (Hsil [] (Forall_nil_2 quiet)).
  split; [|split; [|split; [|split; [|split; [|split; [|split; [|split]]]]]]].
  - intros p Hp. apply (calm_prefix (trace w)); [simpl; lia|exact Hc|exact Hp].
  - intros p h seg Hp. by apply (calm_play_in_silence (trace w) [] p h seg).
  - exact Hh.
  - intros items loop Hne.
    destruct (mix_and_play_run w items loop Hne) as [lines Hrun];
      [unfold tempo_ok in Ht; lia|].
    eexists lines, _. unfold exec. rewrite Hrun. simpl.
    split; [reflexivity|]. split; [apply Hsil, quiet_prints|].
    split; [|reflexivity].
    rewrite !app_assoc, sounding_app, <- app_assoc.
    rewrite (Hsil _ (quiet_prints lines)). reflexivity.
  - intros Hnone. rewrite stop_playback_run. unfold stop_events.
    rewrite Hnone. destruct w. simpl. by rewrite app_nil_r.
  - rewrite stop_playback_trace. exact Hstop.
  - rewrite !stop_playback_trace, stop_playback_self, sounding_app.
    rewrite Hstop. unfold stop_events.
    by destruct (current_playback (self w)).
  - by rewrite !stop_playback_self.
  - unfold exec. by rewrite !stop_playback_run.
Qed.

(** Two mixes in a row at tempo 300: the second stops the handle of the
    first before its own buffer starts. *)
Example play_twice :
  exists first second,
    trace (fold_left do_step [Line (CMix ["drums"]); Line (CMix ["drums"])]
             band_world) =
    [Played 0%nat first; Stopped 0%nat; Played 1%nat second].
Proof. eexists _, _. vm_compute. reflexivity. Qed.

(** * Further properties of the sequencer *)

(** ** Loading and its reports *)

Lemma load_audio_file_report path w :
  load_audio_file path w =
  (Ok (loaded (fs w) path), say (load_report (fs w) path) w).
Proof.
  unfold load_audio_file, loaded, load_report, bind, read_file. simpl.
  destruct (fs w !! path) as [[seg|err]|]; try reflexivity.
  unfold ret. by rewrite say_nil.
Qed.

(** X1: [load_audio_file] never raises and touches nothing but standard
    output.  It returns a segment exactly when the path holds a WAV file
    that decodes, and then prints nothing; otherwise it returns [None]
    and prints exactly one line. *)
Theorem load_audio_file_contract path w :
  exists r lines,
    load_audio_file path w = (Ok r, say lines w)
    /\ (forall seg, r = Some seg <-> fs w !! path = Some (Wav seg))
    /\ (r = None -> length lines = 1%nat)
    /\ (is_Some r -> lines = []).
Proof.
  exists (loaded (fs w) path), (load_report (fs w) path).
  split; [apply load_audio_file_report|].
  unfold loaded, load_report.
  destruct (fs w !! path) as [[seg|err]|]; repeat split;
    try (intros; congruence); try (intros; reflexivity);
    try (intros [? ?]; discriminate); intros [? ?]; discriminate.
Qed.

Lemma create_pattern_sound_report w name flags beat_ms :
  patterns (self w) !! name = Some flags ->
  create_pattern_sound name beat_ms w =
  (Ok (match loaded (fs w) (wav_path (samples_dir (self w)) name) with
       | Some hit_sound =>
           if truth hit_sound then
             Some (concat (pattern_slot hit_sound beat_ms <$> flags))
           else None
       | None => None
       end),
   say (load_report (fs w) (wav_path (samples_dir (self w)) name)) w).
Proof.
  intros Hp. unfold create_pattern_sound, bind, get_self.
  rewrite (getitem_Some _ _ _ _ Hp).
  pose proof (load_audio_file_report (wav_path (samples_dir (self w)) name) w)
    as Hl.
  unfold wav_path in Hl |- *. rewrite Hl.
  destruct (loaded _ _) as [hit_sound|]; [|reflexivity].
  destruct (truth hit_sound); [|reflexivity].
  simpl. unfold ret. by rewrite fold_pattern_step.
Qed.

Lemma melody_step_report beat_ms note (sound : list Z) w :
  melody_step beat_ms note sound w =
  (Ok (sound ++ note_slot (fs w) (notes_dir (self w)) beat_ms note),
   say (load_report (fs w) (wav_path (notes_dir (self w)) note)) w).
Proof.
  unfold melody_step, bind, get_self.
  pose proof (load_audio_file_report (wav_path (notes_dir (self w)) note) w)
    as Hl.
  unfold wav_path in Hl. rewrite Hl.
  unfold note_slot, wav_path.
  destruct (loaded _ _) as [note_audio|]; [|reflexivity].
  destruct (truth note_audio); reflexivity.
Qed.

Lemma melody_loop_report beat_ms (notes : list string) :
  forall (sound : list Z) w,
    for_in notes (melody_step beat_ms) sound w =
    (Ok (sound ++ concat (note_slot (fs w) (notes_dir (self w)) beat_ms <$> notes)),
     say (concat ((fun note =>
                     load_report (fs w) (wav_path (notes_dir (self w)) note))
                    <$> notes)) w).
Proof.
  induction notes as [|note notes IH]; intros sound w.
  - simpl. unfold ret. by rewrite say_nil, app_nil_r.
  - simpl. unfold bind. rewrite melody_step_report, IH. simpl.
    by rewrite say_say, <- app_assoc.
Qed.

Lemma create_melody_sound_report w name notes beat_ms :
  melodies (self w) !! name = Some notes ->
  create_melody_sound name beat_ms w =
  (Ok (Some (concat (note_slot (fs w) (notes_dir (self w)) beat_ms <$> notes))),
   say (concat ((fun note =>
                   load_report (fs w) (wav_path (notes_dir (self w)) note))
                  <$> notes)) w).
Proof.
  intros Hm. unfold create_melody_sound, bind, get_self.
  rewrite (getitem_Some _ _ _ _ Hm), melody_loop_report. reflexivity.
Qed.

Lemma mix_step_report beat_ms name (final : list Z) w :
  mix_step beat_ms name final w =
  (Ok (mixed_step (self w) (fs w) beat_ms final name),
   say (mix_report (self w) (fs w) name) w).
Proof.
  unfold mix_step, mixed_step, rendered, mix_report, bind, get_self.
  destruct (patterns (self w) !! name) as [flags|] eqn:Hp.
  - rewrite (contains_Some _ _ _ Hp).
    rewrite (create_pattern_sound_report w name flags beat_ms Hp).
    destruct (loaded _ _) as [hit_sound|]; [|reflexivity].
    destruct (truth hit_sound); [|reflexivity].
    destruct (truth _); reflexivity.
  - rewrite (contains_None _ _ Hp).
    destruct (melodies (self w) !! name) as [notes|] eqn:Hm.
    + rewrite (contains_Some _ _ _ Hm).
      rewrite (create_melody_sound_report w name notes beat_ms Hm).
      destruct (truth _); reflexivity.
    + rewrite (contains_None _ _ Hm). unfold ret. by rewrite say_nil.
Qed.

(** ** Names the sequencer does not know *)

(** X2: called directly, a renderer raises [KeyError] exactly on a name
    that is not defined, before it reads or prints anything; on a defined
    name it returns, and changes nothing but standard output. *)
Theorem renderers_raise_on_undefined_names w name beat_ms :
  (patterns (self w) !! name = None ->
   create_pattern_sound name beat_ms w = (Raise (KeyError name), w))
  /\ (is_Some (patterns (self w) !! name) ->
      exists r lines, create_pattern_sound name beat_ms w = (Ok r, say lines w))
  /\ (melodies (self w) !! name = None ->
      create_melody_sound name beat_ms w = (Raise (KeyError name), w))
  /\ (is_Some (melodies (self w) !! name) ->
      exists track lines,
        create_melody_sound name beat_ms w = (Ok (Some track), say lines w)).
Proof.
  repeat split.
  - intros Hp. unfold create_pattern_sound, bind, get_self, getitem.
    by rewrite Hp.
  - intros [flags Hp]. eexists _, _. by apply create_pattern_sound_report.
  - intros Hm. unfold create_melody_sound, bind, get_self, getitem.
    by rewrite Hm.
  - intros [notes Hm]. eexists _, _. by apply create_melody_sound_report.
Qed.

Lemma renderers_raise_on_undefined_names_witness :
  create_pattern_sound "lead" 500 lead_world = (Raise (KeyError "lead"), lead_world)
  /\ exists track lines,
       create_melody_sound "lead" 500 lead_world =
       (Ok (Some track), say lines lead_world).
Proof.
  destruct (renderers_raise_on_undefined_names lead_world "lead" 500)
    as (Hp & _ & _ & Hm).
  split.
  - apply Hp. vm_compute. reflexivity.
  - apply Hm. vm_compute. eexists. reflexivity.
Defined.

Lemma mix_loop_unknown beat_ms w (items : list string) :
  Forall (fun name => patterns (self w) !! name = None
                      /\ melodies (self w) !! name = None) items ->
  forall final : list Z, for_in items (mix_step beat_ms) final w = (Ok final, w).
Proof.
  induction 1 as [|name items [Hp Hm] _ IH]; intros final; [reflexivity|].
  simpl. unfold bind. rewrite mix_step_report.
  unfold mixed_step, rendered, mix_report. rewrite Hp, Hm, say_nil. apply IH.
Qed.

(** X3: a mix request whose names are all unknown, neither patterns nor
    melodies, is no error: nothing is printed, the held playback is
    stopped, and one measure of pure silence is played. *)
Theorem mix_of_unknown_names_plays_silence w items loop :
  items <> [] ->
  tempo (self w) <> 0 ->
  Forall (fun name => patterns (self w) !! name = None
                      /\ melodies (self w) !! name = None) items ->
  mix_and_play items loop w =
  (Ok tt,
   {| self := with_current_playback (Some (next_play_id w)) (self w);
      fs := fs w;
      next_play_id := S (next_play_id w);
      trace := trace w ++ stop_events (self w)
               ++ [Played (next_play_id w)
                     (silent (60000 / tempo (self w) * 4))] |}).
Proof.
  intros Hne Ht Hall. destruct items as [|name items]; [done|].
  unfold mix_and_play, bind, get_self.
  rewrite (floordiv_run _ _ _ Ht), (mix_loop_unknown _ _ _ Hall).
  rewrite stop_playback_run. simpl. unfold set_self. simpl.
  by rewrite <- app_assoc.
Qed.

Lemma mix_of_unknown_names_plays_silence_witness :
  mix_and_play ["bass"; "pad"] false band_world =
  (Ok tt,
   {| self := with_current_playback (Some (next_play_id band_world))
                (self band_world);
      fs := fs band_world;
      next_play_id := S (next_play_id band_world);
      trace := trace band_world ++ stop_events (self band_world)
               ++ [Played (next_play_id band_world)
                     (silent (60000 / tempo (self band_world) * 4))] |}).
Proof.
  apply (mix_of_unknown_names_plays_silence band_world ["bass"; "pad"] false).
  - discriminate.
  - vm_compute. discriminate.
  - repeat constructor.
Defined.

(** X4: a name defined both as a pattern and as a melody is mixed as the
    pattern: defining, or redefining, a melody under the name of a pattern
    changes neither the measure a round of the mixing loop returns nor the
    lines it prints, and no note file is read. *)
Theorem pattern_shadows_melody w name flags notes beat_ms (final : list Z) :
  patterns (self w) !! name = Some flags ->
  let w' := exec (parse_line (CMelody name notes)) w in
  melodies (self w') !! name = Some notes
  /\ exists r,
       mix_step beat_ms name final w =
         (Ok r, say (load_report (fs w) (wav_path (samples_dir (self w)) name)) w)
       /\ mix_step beat_ms name final w' =
         (Ok r, say (load_report (fs w) (wav_path (samples_dir (self w)) name)) w').
Proof.
  intros Hp w'. split; [apply lookup_insert_eq|].
  eexists. rewrite !mix_step_report.
  unfold mixed_step, rendered, mix_report. simpl. rewrite Hp. split; reflexivity.
Qed.

Lemma pattern_shadows_melody_witness :
  exists r,
    mix_step 200 "drums" (silent 800) band_world =
      (Ok r, say (load_report (fs band_world)
                    (wav_path (samples_dir (self band_world)) "drums")) band_world)
    /\ mix_step 200 "drums" (silent 800)
         (exec (parse_line (CMelody "drums" ["C4"; "E4"])) band_world) =
      (Ok r, say (load_report (fs band_world)
                    (wav_path (samples_dir (self band_world)) "drums"))
               (exec (parse_line (CMelody "drums" ["C4"; "E4"])) band_world)).
Proof.
  destruct (pattern_shadows_melody band_world "drums" [1; 0; 1; 0]
              ["C4"; "E4"] 200 (silent 800)) as [_ H].
  - vm_compute. reflexivity.
  - exact H.
Defined.

(** ** Samples of no duration *)

(** X7: a sample file that decodes to a segment of no duration counts as
    a failed load, without a word: the pattern renderer returns [None]
    and prints nothing, whatever the flags; the melody renderer fills the
    note's slot with a beat of silence and prints nothing. *)
Theorem empty_sample_is_a_silent_failure w name flags note beat_ms (sound : list Z) :
  patterns (self w) !! name = Some flags ->
  fs w !! wav_path (samples_dir (self w)) name = Some (Wav []) ->
  fs w !! wav_path (notes_dir (self w)) note = Some (Wav []) ->
  create_pattern_sound name beat_ms w = (Ok None, w)
  /\ (forall final, mix_step beat_ms name final w = (Ok final, w))
  /\ melody_step beat_ms note sound w = (Ok (sound ++ silent beat_ms), w).
Proof.
  intros Hp Hs Hn.
  assert (create_pattern_sound name beat_ms w = (Ok None, w)) as Hrun.
  { rewrite (create_pattern_sound_report w name flags beat_ms Hp).
    unfold loaded, load_report. rewrite Hs. simpl. by rewrite say_nil. }
  split; [exact Hrun|]. split.
  - intros final. unfold mix_step, bind, get_self.
    by rewrite (contains_Some _ _ _ Hp), Hrun.
  - rewrite melody_step_report. unfold note_slot, loaded, load_report.
    rewrite Hn. simpl. by rewrite say_nil.
Qed.

Lemma empty_sample_is_a_silent_failure_witness :
  create_pattern_sound "hat" 500 empty_sample_world = (Ok None, empty_sample_world)
  /\ (forall final,
        mix_step 500 "hat" final empty_sample_world = (Ok final, empty_sample_world))
  /\ melody_step 500 "A4" [] empty_sample_world =
     (Ok ([] ++ silent 500), empty_sample_world).
Proof.
  apply (empty_sample_is_a_silent_failure empty_sample_world "hat" [1; 1] "A4" 500 []).
  - vm_compute. reflexivity.
  - vm_compute. reflexivity.
  - vm_compute. reflexivity.
Defined.

(** ** What a render prints *)

Lemma length_load_report files path :
  length (load_report files path) =
  if decide (loaded files path = None) then 1%nat else 0%nat.
Proof.
  unfold load_report, loaded.
  destruct (files !! path) as [[seg|err]|]; reflexivity.
Qed.

Lemma length_melody_report files dir (notes : list string) :
  length (concat ((fun note => load_report files (wav_path dir note)) <$> notes)) =
  length (filter (fun note => loaded files (wav_path dir note) = None) notes).
Proof.
  induction notes as [|note notes IH]; [reflexivity|].
  rewrite fmap_cons, filter_cons.
  change (concat (?x :: ?l)) with (x ++ concat l).
  rewrite length_app, IH, length_load_report.
  destruct (decide _); reflexivity.
Qed.

(** X8: a pattern is rendered from one read of its sample and prints at
    most one line, however many flags it has; a melody reads a file for
    every note and prints one line for every note that does not load, in
    the order of the notes, a note that occurs twice being read and
    reported twice. *)
Theorem render_reports w name beat_ms :
  (forall flags,
     patterns (self w) !! name = Some flags ->
     exists r lines,
       create_pattern_sound name beat_ms w = (Ok r, say lines w)
       /\ (length lines <= 1)%nat)
  /\ (forall notes,
        melodies (self w) !! name = Some notes ->
        exists track,
          create_melody_sound name beat_ms w =
          (Ok (Some track),
           say (concat ((fun note =>
                           load_report (fs w) (wav_path (notes_dir (self w)) note))
                          <$> notes)) w)
          /\ length (concat ((fun note =>
                                load_report (fs w) (wav_path (notes_dir (self w)) note))
                               <$> notes)) =
             length (filter (fun note =>
                               loaded (fs w) (wav_path (notes_dir (self w)) note) = None)
                       notes)).
Proof.
  split.
  - intros flags Hp. eexists _, _.
    split; [by apply create_pattern_sound_report|].
    rewrite length_load_report. destruct (decide _); lia.
  - intros notes Hm. eexists.
    split; [by apply create_melody_sound_report|].
    apply length_melody_report.
Qed.

(** A melody that names the missing D4 twice. *)
Example missing_note_twice :
  trace (exec (create_melody_sound "lead" 500)
           (exec (parse_line (CMelody "lead" ["D4"; "C4"; "D4"])) lead_world)) =
  [Printed "Archivo no encontrado: notes/D4.wav";
   Printed "Archivo no encontrado: notes/D4.wav"].
Proof. vm_compute. reflexivity. Qed.

Lemma render_reports_witness :
  exists track,
    create_melody_sound "lead" 500 lead_world =
    (Ok (Some track),
     say (concat ((fun note =>
                     load_report (fs lead_world)
                       (wav_path (notes_dir (self lead_world)) note))
                    <$> ["C4"; "D4"; "E4"])) lead_world).
Proof.
  destruct (render_reports lead_world "lead" 500) as [_ Hm].
  destruct (Hm ["C4"; "D4"; "E4"]) as [track [Hrun _]].
  - vm_compute. reflexivity.
  - exists track. exact Hrun.
Defined.

(** ** What a mix leaves alone *)



(** ** No exception escapes *)

Lemma set_tempo_ok v w : fst (set_tempo v w) = Ok tt.
Proof. unfold set_tempo. by destruct ((20 <=? v) && (v <=? 300)). Qed.

Lemma mix_and_play_ok items loop w :
  tempo (self w) <> 0 -> fst (mix_and_play items loop w) = Ok tt.
Proof.
  intros Ht. destruct items as [|name items]; [reflexivity|].
  destruct (mix_and_play_run w (name :: items) loop) as [l Hplay];
    [done|exact Ht|].
  by rewrite Hplay.
Qed.

Lemma mix_and_save_ok items filename w :
  tempo (self w) <> 0 -> fst (mix_and_save items filename w) = Ok tt.
Proof.
  intros Ht. destruct (mix_and_save_run w items filename Ht) as [l Hsave].
  by rewrite Hsave.
Qed.

Lemma parse_line_ok c w : tempo (self w) <> 0 -> fst (parse_line c w) = Ok tt.
Proof.
  intros Ht. destruct c as [v|name vals|name notes|items|filename items]; simpl.
  - apply set_tempo_ok.
  - reflexivity.
  - reflexivity.
  - by apply mix_and_play_ok.
  - by apply mix_and_save_ok.
Qed.

(** X10: in a world reached by any run, no command of a song file and no
    call of [set_tempo], [mix_and_play], [mix_and_save] or [stop_playback]
    raises, whatever names, files and values it is given: undefined
    names, missing or unreadable samples and out-of-range tempos are all
    absorbed, and the division by the tempo never fails. *)
Theorem no_exception_escapes files steps :
  let w := run files steps in
  (forall c, fst (parse_line c w) = Ok tt)
  /\ (forall v, fst (set_tempo v w) = Ok tt)
  /\ (forall items loop, fst (mix_and_play items loop w) = Ok tt)
  /\ (forall items filename, fst (mix_and_save items filename w) = Ok tt)
  /\ fst (stop_playback w) = Ok tt.
Proof.
  intros w. destruct (run_Inv files steps) as [Ht _ _]. fold w in Ht.
  assert (tempo (self w) <> 0) as Ht0 by (unfold tempo_ok in Ht; lia).
  repeat split; intros.
  - by apply parse_line_ok.
  - apply set_tempo_ok.
  - by apply mix_and_play_ok.
  - by apply mix_and_save_ok.
  - by rewrite stop_playback_run.
Qed.

(** ** The playback handle *)

Lemma do_step_keeps_handle w st :
  tempo_ok w ->
  is_Some (current_playback (self w)) ->
  is_Some (current_playback (self (do_step w st))).
Proof.
  intros Ht Hcur. destruct (do_step_effect w st Ht) as [_ Heff].
  destruct Heff as [q _ _ ->|e _ _ ->|q seg _ _ ->]; eauto.
Qed.

Lemma fold_do_step_keeps_handle more : forall w,
  Inv w ->
  is_Some (current_playback (self w)) ->
  is_Some (current_playback (self (fold_left do_step more w))).
Proof.
  induction more as [|st more IH]; intros w Hw Hcur; [exact Hcur|].
  simpl. apply IH; [by apply do_step_Inv|].
  apply do_step_keeps_handle; [apply Hw|exact Hcur].
Qed.

(** X11: the sequencer never lets go of a playback handle.  Once a mix has
    played, [current_playback] holds a handle after every later step:
    [stop_playback] stops the playback but keeps its handle, and so does
    the end of the playback itself; only the next mix replaces it. *)
Theorem playback_handle_is_never_dropped files steps more :
  is_Some (current_playback (self (run files steps))) ->
  is_Some (current_playback (self (run files (steps ++ more)))).
Proof.
  intros Hcur. unfold run. rewrite fold_left_app.
  apply fold_do_step_keeps_handle; [apply run_Inv|exact Hcur].
Qed.

Lemma playback_handle_is_never_dropped_witness :
  is_Some (current_playback
             (self (run ∅ ([Line (CMix ["drums"])]
                           ++ [CallStop; PlaybackEnds 0; CallStop])))).
Proof.
  apply (playback_handle_is_never_dropped ∅ [Line (CMix ["drums"])]
           [CallStop; PlaybackEnds 0; CallStop]).
  vm_compute. eexists. reflexivity.
Defined.

(** ** Song files *)

Section SongFileFacts.

Variable str_exn : exn -> string.

Lemma parse_line_do_step c w :
  tempo (self w) <> 0 -> parse_line c w = (Ok tt, do_step w (Line c)).
Proof.
  intros Ht. pose proof (parse_line_ok c w Ht) as Hok.
  simpl. unfold exec. destruct (parse_line c w) as [r w']. simpl in *.
  by rewrite Hok.
Qed.

Lemma song_loop_clean (lines : list song_line) : forall rest w,
  Forall clean lines ->
  tempo_ok w ->
  song_loop str_exn (lines ++ rest) w =
  song_loop str_exn rest (fold_left do_step (Line <$> commands_of lines) w).
Proof.
  induction lines as [|l lines IH]; intros rest w Hclean Ht; [reflexivity|].
  inversion Hclean as [|? ? Hl Hrest]; subst.
  destruct l as [|c|msg]; [| |destruct Hl].
  - simpl. by apply IH.
  - change (commands_of (Cmd c :: lines)) with (c :: commands_of lines).
    simpl. rewrite parse_line_do_step by (unfold tempo_ok in Ht; lia).
    apply IH; [exact Hrest|]. apply (do_step_effect w (Line c) Ht).
Qed.

Lemma song_loop_Inv (lines : list song_line) : forall w,
  Inv w -> Inv (snd (song_loop str_exn lines w)).
Proof.
  induction lines as [|l lines IH]; intros w Hw; [exact Hw|].
  destruct l as [|c|msg]; simpl.
  - by apply IH.
  - pose proof (do_step_Inv w (Line c) Hw) as Hw'. simpl in Hw'.
    unfold exec in Hw'. destruct (parse_line c w) as [[[]|e] w']; simpl in *.
    + by apply IH.
    + exact Hw'.
  - exact Hw.
Qed.

Lemma emit_quiet_Inv e w : quiet e -> Inv w -> Inv (emit e w).
Proof.
  intros He [Ht Hc Hh].
  assert (effect w (emit e w)) as Heff.
  { apply (effect_quiet _ _ [e]); [by constructor|reflexivity|reflexivity]. }
  destruct (effect_keeps _ _ Heff Hc Hh) as [Hc' Hh'].
  by constructor.
Qed.

End SongFileFacts.

Lemma steady_clean (l : song_line) : steady l -> clean l.
Proof. destruct l as [|[]|]; simpl; tauto. Qed.



(** X13: a song file whose lines raise nothing and save nothing (an
    export can fail, and the sink is taken to play) is its commands run
    in order, blank and unmatched lines counting for nothing; nothing is
    printed beyond what the commands print. *)
Theorem load_song_file_runs_the_commands str_exn songs filename lines w :
  songs !! filename = Some lines ->
  Forall steady lines ->
  20 <= tempo (self w) <= 300 ->
  load_song_file str_exn songs filename w =
  (Ok tt, fold_left do_step (Line <$> commands_of lines) w).
Proof.
  intros Hfile Hsteady Ht. unfold load_song_file. rewrite Hfile.
  rewrite <- (app_nil_r lines) at 1.
  rewrite (song_loop_clean str_exn lines [] w
             (Forall_impl _ _ _ Hsteady steady_clean) Ht).
  reflexivity.
Qed.

Lemma load_song_file_runs_the_commands_witness :
  load_song_file (fun _ => "")
    {[ "song.loop" := [Cmd (CTempo 90); Skip; Cmd (CMix [])] ]} "song.loop" (boot ∅) =
  (Ok tt,
   fold_left do_step (Line <$> commands_of [Cmd (CTempo 90); Skip; Cmd (CMix [])])
     (boot ∅)).
Proof.
  apply (load_song_file_runs_the_commands (fun _ => "")
           {[ "song.loop" := [Cmd (CTempo 90); Skip; Cmd (CMix [])] ]} "song.loop"
           [Cmd (CTempo 90); Skip; Cmd (CMix [])] (boot ∅)).
  - vm_compute. reflexivity.
  - repeat constructor.
  - vm_compute. split; discriminate.
Defined.

(** X14: [load_song_file] never raises, whatever the file holds and
    whether it exists or not, and what a run guarantees survives it: the
    tempo is still between 20 and 300, at every point of the trace at
    most one playback sounds, and what sounds at the end is the playback
    whose handle is held. *)
Theorem load_song_file_is_safe str_exn songs filename files steps :
  let w := run files steps in
  let w' := exec (load_song_file str_exn songs filename) w in
  fst (load_song_file str_exn songs filename w) = Ok tt
  /\ 20 <= tempo (self w') <= 300
  /\ (forall p, p `prefix_of` trace w' -> (length (sounding p) <= 1)%nat)
  /\ (forall h, h ∈ sounding (trace w') -> current_playback (self w') = Some h).
Proof.
  intros w w'.
  assert (fst (load_song_file str_exn songs filename w) = Ok tt /\ Inv w')
    as [Hok [Ht Hc Hh]].
  { unfold w', exec, load_song_file.
    pose proof (run_Inv files steps) as Hw. fold w in Hw.
    destruct (songs !! filename) as [lines|].
    - pose proof (song_loop_Inv str_exn lines w Hw) as Hloop.
      destruct (song_loop str_exn lines w) as [[msg|] w1]; simpl in *.
      + split; [reflexivity|]. by apply emit_quiet_Inv.
      + split; [reflexivity|exact Hloop].
    - split; [reflexivity|]. by apply emit_quiet_Inv. }
  split; [exact Hok|]. split; [exact Ht|]. split; [|exact Hh].
  intros p Hp. apply (calm_prefix (trace w')); [simpl; lia|exact Hc|exact Hp].
Qed.

(** ** Definitions *)

Lemma do_step_keeps_pattern w st name :
  tempo_ok w ->
  is_Some (patterns (self w) !! name) ->
  is_Some (patterns (self (do_step w st)) !! name).
Proof.
  intros Ht Hdef.
  assert (tempo (self w) <> 0) as Ht0 by (unfold tempo_ok in Ht; lia).
  assert (forall v, patterns (self (exec (set_tempo v) w)) = patterns (self w))
    as Hset.
  { intros v. unfold exec, set_tempo.
    by destruct ((20 <=? v) && (v <=? 300)). }
  assert (forall items loop,
            patterns (self (exec (mix_and_play items loop) w)) = patterns (self w))
    as Hplay.
  { intros [|item items] loop; [reflexivity|].
    destruct (mix_and_play_run w (item :: items) loop) as [l Hrun];
      [done|exact Ht0|].
    unfold exec. by rewrite Hrun. }
  assert (forall items filename,
            patterns (self (exec (mix_and_save items filename) w)) = patterns (self w))
    as Hsave.
  { intros items filename.
    destruct (mix_and_save_run w items filename Ht0) as [l Hrun].
    unfold exec. by rewrite Hrun. }
  destruct st as [c|v|items loop|items filename| |sd nd|h|path f]; simpl.
  - destruct c as [v|n vals|n notes|items|filename items]; simpl.
    + by rewrite Hset.
    + destruct (decide (n = name)) as [->|Hne].
      * rewrite lookup_insert_eq. by eexists.
      * by rewrite lookup_insert_ne.
    + exact Hdef.
    + by rewrite Hplay.
    + by rewrite Hsave.
  - by rewrite Hset.
  - by rewrite Hplay.
  - by rewrite Hsave.
  - unfold exec. by rewrite stop_playback_run.
  - exact Hdef.
  - exact Hdef.
  - exact Hdef.
Qed.

Lemma fold_do_step_keeps_pattern more name : forall w,
  tempo_ok w ->
  is_Some (patterns (self w) !! name) ->
  is_Some (patterns (self (fold_left do_step more w)) !! name).
Proof.
  induction more as [|st more IH]; intros w Ht Hdef; [exact Hdef|].
  simpl. apply IH; [by apply do_step_effect|by apply do_step_keeps_pattern].
Qed.

(** X15: a pattern is never forgotten: nothing in the sequencer removes a
    definition, so a name defined as a pattern is a pattern after every
    later step, and, patterns being looked up first, it cannot be mixed
    as a melody again: a round of the mixing loop on it reads the
    pattern's sample and no note file. *)
Theorem patterns_are_never_forgotten files steps more name :
  is_Some (patterns (self (run files steps)) !! name) ->
  let w := run files (steps ++ more) in
  is_Some (patterns (self w) !! name)
  /\ forall beat_ms (final : list Z),
     exists r,
       mix_step beat_ms name final w =
       (Ok r, say (load_report (fs w) (wav_path (samples_dir (self w)) name)) w).
Proof.
  intros Hdef w.
  assert (is_Some (patterns (self w) !! name)) as [flags Hp].
  { unfold w, run. rewrite fold_left_app.
    apply fold_do_step_keeps_pattern; [apply run_Inv|exact Hdef]. }
  split; [by eexists|].
  intros beat_ms final. eexists. rewrite mix_step_report.
  unfold mix_report. by rewrite Hp.
Qed.

Lemma patterns_are_never_forgotten_witness :
  is_Some (patterns
             (self (run ∅ ([Line (CPattern "drums" [1; 0])]
                           ++ [Line (CMelody "drums" ["C4"]); Line (CTempo 90)])))
             !! "drums").
Proof.
  destruct (patterns_are_never_forgotten ∅ [Line (CPattern "drums" [1; 0])]
              [Line (CMelody "drums" ["C4"]); Line (CTempo 90)] "drums")
    as [H _].
  - vm_compute. eexists. reflexivity.
  - exact H.
Defined.

(** ** Playing and saving *)

Lemma mix_loop_report beat_ms (items : list string) :
  forall (final : list Z) w,
    for_in items (mix_step beat_ms) final w =
    (Ok (mixed (self w) (fs w) beat_ms items final),
     say (concat (mix_report (self w) (fs w) <$> items)) w).
Proof.
  induction items as [|name items IH]; intros final w.
  - simpl. unfold ret. by rewrite say_nil.
  - simpl. unfold bind. rewrite mix_step_report, IH. simpl. by rewrite say_say.
Qed.

(** X16: what is handed to the exporter is what is played.  For the same
    request in the same world, [mix_and_save] prints, while it renders,
    the lines [mix_and_play] prints, and then calls the exporter with the
    very buffer [mix_and_play] hands to the sink.  What the exporter makes
    of it, and what follows the call, is left out. *)
Theorem saved_measure_is_played_measure w items loop filename :
  items <> [] ->
  tempo (self w) <> 0 ->
  exists final lines,
    trace (exec (mix_and_play items loop) w) =
      trace w ++ (Printed <$> lines) ++ stop_events (self w)
      ++ [Played (next_play_id w) final]
    /\ trace w ++ (Printed <$> lines) ++ [Exported filename final]
       `prefix_of` trace (exec (mix_and_save items filename) w).
Proof.
  intros Hne Ht.
  exists (mixed (self w) (fs w) (60000 / tempo (self w)) items
            (silent (60000 / tempo (self w) * 4))),
         (concat (mix_report (self w) (fs w) <$> items)).
  destruct items as [|name items]; [done|].
  unfold exec, mix_and_play, mix_and_save, bind, get_self.
  rewrite (floordiv_run _ _ _ Ht), mix_loop_report, stop_playback_run.
  simpl. split.
  - by rewrite <- !app_assoc.
  - exists [Printed ("Mezcla guardada como " +:+ filename)].
    by rewrite <- !app_assoc.
Qed.

Lemma saved_measure_is_played_measure_witness :
  exists final lines,
    trace (exec (mix_and_play ["drums"; "lead"] false) band_world) =
      trace band_world ++ (Printed <$> lines) ++ stop_events (self band_world)
      ++ [Played (next_play_id band_world) final]
    /\ trace band_world ++ (Printed <$> lines) ++ [Exported "out.wav" final]
       `prefix_of` trace (exec (mix_and_save ["drums"; "lead"] "out.wav") band_world).
Proof.
  apply (saved_measure_is_played_measure band_world ["drums"; "lead"] false "out.wav").
  - discriminate.
  - vm_compute. discriminate.
Defined.

(** X17: a definition with nothing in it adds nothing to a mix.  A pattern
    without flags leaves the measure as it was, though its sample is
    still read (and reported when missing); a melody without notes leaves
    the measure as it was and prints nothing. *)
Theorem empty_definitions_add_nothing w name beat_ms (final : list Z) :
  (patterns (self w) !! name = Some [] ->
   mix_step beat_ms name final w =
   (Ok final, say (load_report (fs w) (wav_path (samples_dir (self w)) name)) w))
  /\ (patterns (self w) !! name = None ->
      melodies (self w) !! name = Some [] ->
      mix_step beat_ms name final w = (Ok final, w)).
Proof.
  split.
  - intros Hp. rewrite mix_step_report.
    unfold mixed_step, rendered, mix_report. rewrite Hp.
    destruct (loaded _ _) as [hit_sound|]; [|reflexivity].
    destruct (truth hit_sound); reflexivity.
  - intros Hp Hm. rewrite mix_step_report.
    unfold mixed_step, rendered, mix_report. rewrite Hp, Hm. simpl.
    by rewrite say_nil.
Qed.

Lemma empty_definitions_add_nothing_witness :
  mix_step 500 "rest" [1; 2; 3]
    (exec (parse_line (CMelody "rest" [])) (boot ∅)) =
  (Ok [1; 2; 3], exec (parse_line (CMelody "rest" [])) (boot ∅)).
Proof.
  destruct (empty_definitions_add_nothing
              (exec (parse_line (CMelody "rest" [])) (boot ∅)) "rest" 500 [1; 2; 3])
    as [_ H].
  apply H; vm_compute; reflexivity.
Defined.
